(** * The stream-discovery resolver of liblsl (src/resolver_impl.cpp)

    A shallow embedding of [resolver_impl]: the result store and its aged,
    capped read-out ([results]), the wave scheduler ([next_resolve_wave],
    the two bursts), the two resolve modes, cancellation, and the
    convenience constructor [create_resolver] with [build_query].

    Conventions.
    - Clock readings and durations are [double] seconds in the source.  They
      are represented here by exact integers (a count of clock ticks, the
      clock being derived from [lsl_local_clock_ns]); rounding and NaN are
      outside this model.
    - C++ exceptions are an explicit outcome ([Thrown]); member functions are
      computations over the [resolver_impl] object, which keeps whatever was
      written to it before a throw.
    - What the object does to the outside world (starting attempts, log
      lines, restarting the I/O context, ...) is recorded in [io_trace]. *)

From Stdlib Require Import ZArith NArith List String Ascii Bool Lia.
From Stdlib Require Import DecimalString.
Import ListNotations.

Local Open Scope string_scope.
Local Open Scope list_scope.
Local Open Scope Z_scope.

(** ** Basic data *)

(** Seconds on the clock, or a duration. *)
Definition time := Z.

(** [stream_info_impl] is opaque to the resolver; it is carried around as
    its serialized form. *)
Definition stream_info_impl := string.

Inductive protocol := v6 | v4.

Definition address := string.

(** [udp::endpoint]: an address and a 16-bit port. *)
Definition endpoint := (address * Z)%type.

Inductive error_code := success | operation_aborted.

Definition error_code_eqb (a b : error_code) : bool :=
  match a, b with
  | success, success | operation_aborted, operation_aborted => true
  | _, _ => false
  end.

Inductive verbosity := ERROR | WARNING.

Inductive timer_id := the_wave_timer | the_unicast_timer | the_resolve_timeout.

(** A [steady_timer]: [Some d] while a wait of duration [d] is pending. *)
Definition steady_timer := option time.

(** Interactions with the world outside the object. *)
Inductive effect :=
| io_restart
| attempt_begin (p : protocol) (targets : list endpoint) (query : string)
                (max_rtt : time)
| log_f (lvl : verbosity) (msg : string)
| cancel_all_registered
| spawn_io_thread.

(** ** Configuration (api_config.h): the fields the resolver reads *)

Record api_config := {
  allow_ipv6 : bool;
  allow_ipv4 : bool;
  base_port : Z;
  port_range : Z;
  multicast_port : Z;
  multicast_addresses : list string;
  known_peers : list string;
  session_id : string;
  multicast_min_rtt : time;
  multicast_max_rtt : time;
  unicast_min_rtt : time;
  unicast_max_rtt : time;
  continuous_resolve_interval : time
}.

(** ** The result store *)

(** [result_container] is a [std::map] from the stream's uid to the pair
    (descriptor, time last seen).  A [std::map] is traversed in key order,
    so the store is an association list kept in the order of its keys. *)
Definition result_entry := (string * (stream_info_impl * time))%type.
Definition result_container := list result_entry.

Definition entry_key (e : result_entry) : string := fst e.
Definition entry_info (e : result_entry) : stream_info_impl := fst (snd e).
Definition last_seen (e : result_entry) : time := snd (snd e).

(** Modelled from the spec: the insert-or-refresh done by a resolve attempt
    when a reply arrives (resolve_attempt_udp.cpp is not among the sources).
    "if key present, only update last_seen to now; otherwise insert new
    record".  The new record goes to its place in key order. *)
Fixpoint upsert (k : string) (d : stream_info_impl) (now : time)
         (m : result_container) : result_container :=
  match m with
  | [] => [(k, (d, now))]
  | (k', (d', t')) :: rest =>
      match String.compare k k' with
      | Eq => (k', (d', now)) :: rest
      | Lt => (k, (d, now)) :: m
      | Gt => (k', (d', t')) :: upsert k d now rest
      end
  end.

(** The loop of [resolver_impl::results]: [it] runs over the store,
    [output] is the vector built so far.  Returns the store after the
    erasures and the final vector. *)
Fixpoint results_loop (max_results : N) (expired_before : time)
         (it : result_container) (output : list stream_info_impl)
  : result_container * list stream_info_impl :=
  match it with
  | [] => ([], output)
  | e :: rest =>
      if last_seen e <? expired_before then
        results_loop max_results expired_before rest output
      else
        let output' :=
          if (N.of_nat (List.length output) <? max_results)%N
          then output ++ [entry_info e] else output in
        let (kept, out) := results_loop max_results expired_before rest output' in
        (e :: kept, out)
  end.

(** The spec's [snapshot(max_results, expired_before)] is this loop started
    with an empty output vector. *)
Definition snapshot (max_results : N) (expired_before : time)
           (m : result_container) : result_container * list stream_info_impl :=
  results_loop max_results expired_before m [].

(** ** The resolver object *)

Record resolver_impl := {
  cfg_ : api_config;
  cancelled_ : bool;
  expired_ : bool;
  forget_after_ : time;
  fast_mode_ : bool;
  query_ : string;
  minimum_ : Z;
  wait_until_ : time;
  results_ : result_container;
  mcast_endpoints_ : list endpoint;
  ucast_endpoints_ : list endpoint;
  udp_protocols_ : list protocol;
  tcp_protocols_ : list protocol;
  resolve_timeout_expired_ : steady_timer;
  wave_timer_ : steady_timer;
  unicast_timer_ : steady_timer;
  background_io_ : bool;
  (** closures posted onto [io_] and not yet run: each cancels one timer *)
  io_posted : list timer_id;
  (** what the object has done to the outside world, oldest first *)
  io_trace : list effect
}.

(** Assignments to one member. *)

Definition set_cancelled_ (v : bool) (s : resolver_impl) : resolver_impl :=
  {| cfg_ := cfg_ s;
     cancelled_ := v;
     expired_ := expired_ s;
     forget_after_ := forget_after_ s;
     fast_mode_ := fast_mode_ s;
     query_ := query_ s;
     minimum_ := minimum_ s;
     wait_until_ := wait_until_ s;
     results_ := results_ s;
     mcast_endpoints_ := mcast_endpoints_ s;
     ucast_endpoints_ := ucast_endpoints_ s;
     udp_protocols_ := udp_protocols_ s;
     tcp_protocols_ := tcp_protocols_ s;
     resolve_timeout_expired_ := resolve_timeout_expired_ s;
     wave_timer_ := wave_timer_ s;
     unicast_timer_ := unicast_timer_ s;
     background_io_ := background_io_ s;
     io_posted := io_posted s;
     io_trace := io_trace s |}.

Definition set_expired_ (v : bool) (s : resolver_impl) : resolver_impl :=
  {| cfg_ := cfg_ s;
     cancelled_ := cancelled_ s;
     expired_ := v;
     forget_after_ := forget_after_ s;
     fast_mode_ := fast_mode_ s;
     query_ := query_ s;
     minimum_ := minimum_ s;
     wait_until_ := wait_until_ s;
     results_ := results_ s;
     mcast_endpoints_ := mcast_endpoints_ s;
     ucast_endpoints_ := ucast_endpoints_ s;
     udp_protocols_ := udp_protocols_ s;
     tcp_protocols_ := tcp_protocols_ s;
     resolve_timeout_expired_ := resolve_timeout_expired_ s;
     wave_timer_ := wave_timer_ s;
     unicast_timer_ := unicast_timer_ s;
     background_io_ := background_io_ s;
     io_posted := io_posted s;
     io_trace := io_trace s |}.

Definition set_forget_after_ (v : time) (s : resolver_impl) : resolver_impl :=
  {| cfg_ := cfg_ s;
     cancelled_ := cancelled_ s;
     expired_ := expired_ s;
     forget_after_ := v;
     fast_mode_ := fast_mode_ s;
     query_ := query_ s;
     minimum_ := minimum_ s;
     wait_until_ := wait_until_ s;
     results_ := results_ s;
     mcast_endpoints_ := mcast_endpoints_ s;
     ucast_endpoints_ := ucast_endpoints_ s;
     udp_protocols_ := udp_protocols_ s;
     tcp_protocols_ := tcp_protocols_ s;
     resolve_timeout_expired_ := resolve_timeout_expired_ s;
     wave_timer_ := wave_timer_ s;
     unicast_timer_ := unicast_timer_ s;
     background_io_ := background_io_ s;
     io_posted := io_posted s;
     io_trace := io_trace s |}.

Definition set_fast_mode_ (v : bool) (s : resolver_impl) : resolver_impl :=
  {| cfg_ := cfg_ s;
     cancelled_ := cancelled_ s;
     expired_ := expired_ s;
     forget_after_ := forget_after_ s;
     fast_mode_ := v;
     query_ := query_ s;
     minimum_ := minimum_ s;
     wait_until_ := wait_until_ s;
     results_ := results_ s;
     mcast_endpoints_ := mcast_endpoints_ s;
     ucast_endpoints_ := ucast_endpoints_ s;
     udp_protocols_ := udp_protocols_ s;
     tcp_protocols_ := tcp_protocols_ s;
     resolve_timeout_expired_ := resolve_timeout_expired_ s;
     wave_timer_ := wave_timer_ s;
     unicast_timer_ := unicast_timer_ s;
     background_io_ := background_io_ s;
     io_posted := io_posted s;
     io_trace := io_trace s |}.

Definition set_query_ (v : string) (s : resolver_impl) : resolver_impl :=
  {| cfg_ := cfg_ s;
     cancelled_ := cancelled_ s;
     expired_ := expired_ s;
     forget_after_ := forget_after_ s;
     fast_mode_ := fast_mode_ s;
     query_ := v;
     minimum_ := minimum_ s;
     wait_until_ := wait_until_ s;
     results_ := results_ s;
     mcast_endpoints_ := mcast_endpoints_ s;
     ucast_endpoints_ := ucast_endpoints_ s;
     udp_protocols_ := udp_protocols_ s;
     tcp_protocols_ := tcp_protocols_ s;
     resolve_timeout_expired_ := resolve_timeout_expired_ s;
     wave_timer_ := wave_timer_ s;
     unicast_timer_ := unicast_timer_ s;
     background_io_ := background_io_ s;
     io_posted := io_posted s;
     io_trace := io_trace s |}.

Definition set_minimum_ (v : Z) (s : resolver_impl) : resolver_impl :=
  {| cfg_ := cfg_ s;
     cancelled_ := cancelled_ s;
     expired_ := expired_ s;
     forget_after_ := forget_after_ s;
     fast_mode_ := fast_mode_ s;
     query_ := query_ s;
     minimum_ := v;
     wait_until_ := wait_until_ s;
     results_ := results_ s;
     mcast_endpoints_ := mcast_endpoints_ s;
     ucast_endpoints_ := ucast_endpoints_ s;
     udp_protocols_ := udp_protocols_ s;
     tcp_protocols_ := tcp_protocols_ s;
     resolve_timeout_expired_ := resolve_timeout_expired_ s;
     wave_timer_ := wave_timer_ s;
     unicast_timer_ := unicast_timer_ s;
     background_io_ := background_io_ s;
     io_posted := io_posted s;
     io_trace := io_trace s |}.

Definition set_wait_until_ (v : time) (s : resolver_impl) : resolver_impl :=
  {| cfg_ := cfg_ s;
     cancelled_ := cancelled_ s;
     expired_ := expired_ s;
     forget_after_ := forget_after_ s;
     fast_mode_ := fast_mode_ s;
     query_ := query_ s;
     minimum_ := minimum_ s;
     wait_until_ := v;
     results_ := results_ s;
     mcast_endpoints_ := mcast_endpoints_ s;
     ucast_endpoints_ := ucast_endpoints_ s;
     udp_protocols_ := udp_protocols_ s;
     tcp_protocols_ := tcp_protocols_ s;
     resolve_timeout_expired_ := resolve_timeout_expired_ s;
     wave_timer_ := wave_timer_ s;
     unicast_timer_ := unicast_timer_ s;
     background_io_ := background_io_ s;
     io_posted := io_posted s;
     io_trace := io_trace s |}.

Definition set_results_ (v : result_container) (s : resolver_impl) : resolver_impl :=
  {| cfg_ := cfg_ s;
     cancelled_ := cancelled_ s;
     expired_ := expired_ s;
     forget_after_ := forget_after_ s;
     fast_mode_ := fast_mode_ s;
     query_ := query_ s;
     minimum_ := minimum_ s;
     wait_until_ := wait_until_ s;
     results_ := v;
     mcast_endpoints_ := mcast_endpoints_ s;
     ucast_endpoints_ := ucast_endpoints_ s;
     udp_protocols_ := udp_protocols_ s;
     tcp_protocols_ := tcp_protocols_ s;
     resolve_timeout_expired_ := resolve_timeout_expired_ s;
     wave_timer_ := wave_timer_ s;
     unicast_timer_ := unicast_timer_ s;
     background_io_ := background_io_ s;
     io_posted := io_posted s;
     io_trace := io_trace s |}.

Definition set_resolve_timeout_expired_ (v : steady_timer) (s : resolver_impl) : resolver_impl :=
  {| cfg_ := cfg_ s;
     cancelled_ := cancelled_ s;
     expired_ := expired_ s;
     forget_after_ := forget_after_ s;
     fast_mode_ := fast_mode_ s;
     query_ := query_ s;
     minimum_ := minimum_ s;
     wait_until_ := wait_until_ s;
     results_ := results_ s;
     mcast_endpoints_ := mcast_endpoints_ s;
     ucast_endpoints_ := ucast_endpoints_ s;
     udp_protocols_ := udp_protocols_ s;
     tcp_protocols_ := tcp_protocols_ s;
     resolve_timeout_expired_ := v;
     wave_timer_ := wave_timer_ s;
     unicast_timer_ := unicast_timer_ s;
     background_io_ := background_io_ s;
     io_posted := io_posted s;
     io_trace := io_trace s |}.

Definition set_wave_timer_ (v : steady_timer) (s : resolver_impl) : resolver_impl :=
  {| cfg_ := cfg_ s;
     cancelled_ := cancelled_ s;
     expired_ := expired_ s;
     forget_after_ := forget_after_ s;
     fast_mode_ := fast_mode_ s;
     query_ := query_ s;
     minimum_ := minimum_ s;
     wait_until_ := wait_until_ s;
     results_ := results_ s;
     mcast_endpoints_ := mcast_endpoints_ s;
     ucast_endpoints_ := ucast_endpoints_ s;
     udp_protocols_ := udp_protocols_ s;
     tcp_protocols_ := tcp_protocols_ s;
     resolve_timeout_expired_ := resolve_timeout_expired_ s;
     wave_timer_ := v;
     unicast_timer_ := unicast_timer_ s;
     background_io_ := background_io_ s;
     io_posted := io_posted s;
     io_trace := io_trace s |}.

Definition set_unicast_timer_ (v : steady_timer) (s : resolver_impl) : resolver_impl :=
  {| cfg_ := cfg_ s;
     cancelled_ := cancelled_ s;
     expired_ := expired_ s;
     forget_after_ := forget_after_ s;
     fast_mode_ := fast_mode_ s;
     query_ := query_ s;
     minimum_ := minimum_ s;
     wait_until_ := wait_until_ s;
     results_ := results_ s;
     mcast_endpoints_ := mcast_endpoints_ s;
     ucast_endpoints_ := ucast_endpoints_ s;
     udp_protocols_ := udp_protocols_ s;
     tcp_protocols_ := tcp_protocols_ s;
     resolve_timeout_expired_ := resolve_timeout_expired_ s;
     wave_timer_ := wave_timer_ s;
     unicast_timer_ := v;
     background_io_ := background_io_ s;
     io_posted := io_posted s;
     io_trace := io_trace s |}.

Definition set_background_io_ (v : bool) (s : resolver_impl) : resolver_impl :=
  {| cfg_ := cfg_ s;
     cancelled_ := cancelled_ s;
     expired_ := expired_ s;
     forget_after_ := forget_after_ s;
     fast_mode_ := fast_mode_ s;
     query_ := query_ s;
     minimum_ := minimum_ s;
     wait_until_ := wait_until_ s;
     results_ := results_ s;
     mcast_endpoints_ := mcast_endpoints_ s;
     ucast_endpoints_ := ucast_endpoints_ s;
     udp_protocols_ := udp_protocols_ s;
     tcp_protocols_ := tcp_protocols_ s;
     resolve_timeout_expired_ := resolve_timeout_expired_ s;
     wave_timer_ := wave_timer_ s;
     unicast_timer_ := unicast_timer_ s;
     background_io_ := v;
     io_posted := io_posted s;
     io_trace := io_trace s |}.

Definition set_io_posted (v : list timer_id) (s : resolver_impl) : resolver_impl :=
  {| cfg_ := cfg_ s;
     cancelled_ := cancelled_ s;
     expired_ := expired_ s;
     forget_after_ := forget_after_ s;
     fast_mode_ := fast_mode_ s;
     query_ := query_ s;
     minimum_ := minimum_ s;
     wait_until_ := wait_until_ s;
     results_ := results_ s;
     mcast_endpoints_ := mcast_endpoints_ s;
     ucast_endpoints_ := ucast_endpoints_ s;
     udp_protocols_ := udp_protocols_ s;
     tcp_protocols_ := tcp_protocols_ s;
     resolve_timeout_expired_ := resolve_timeout_expired_ s;
     wave_timer_ := wave_timer_ s;
     unicast_timer_ := unicast_timer_ s;
     background_io_ := background_io_ s;
     io_posted := v;
     io_trace := io_trace s |}.

Definition set_io_trace (v : list effect) (s : resolver_impl) : resolver_impl :=
  {| cfg_ := cfg_ s;
     cancelled_ := cancelled_ s;
     expired_ := expired_ s;
     forget_after_ := forget_after_ s;
     fast_mode_ := fast_mode_ s;
     query_ := query_ s;
     minimum_ := minimum_ s;
     wait_until_ := wait_until_ s;
     results_ := results_ s;
     mcast_endpoints_ := mcast_endpoints_ s;
     ucast_endpoints_ := ucast_endpoints_ s;
     udp_protocols_ := udp_protocols_ s;
     tcp_protocols_ := tcp_protocols_ s;
     resolve_timeout_expired_ := resolve_timeout_expired_ s;
     wave_timer_ := wave_timer_ s;
     unicast_timer_ := unicast_timer_ s;
     background_io_ := background_io_ s;
     io_posted := io_posted s;
     io_trace := v |}.

(** ** Exceptions and computations over the object *)

(** Everything thrown in resolver_impl.cpp derives from [std::exception]. *)
Inductive exn :=
| invalid_argument (msg : string)
| runtime_error (msg : string).

Definition what (e : exn) : string :=
  match e with invalid_argument m | runtime_error m => m end.

Inductive outcome (A : Type) :=
| Returned (a : A)
| Thrown (e : exn).
Arguments Returned {A} a.
Arguments Thrown {A} e.

(** A member function: reads and writes the object, returns or throws. *)
Definition M (A : Type) : Type := resolver_impl -> outcome A * resolver_impl.

Definition ret {A} (a : A) : M A := fun s => (Returned a, s).

Definition bind {A B} (c : M A) (k : A -> M B) : M B :=
  fun s => match c s with
           | (Returned a, s') => k a s'
           | (Thrown e, s') => (Thrown e, s')
           end.

Definition throw {A} (e : exn) : M A := fun s => (Thrown e, s).

(** [try { c } catch (std::exception &e) { h e }] *)
Definition try_catch {A} (c : M A) (h : exn -> M A) : M A :=
  fun s => match c s with
           | (Returned a, s') => (Returned a, s')
           | (Thrown e, s') => h e s'
           end.

Definition get : M resolver_impl := fun s => (Returned s, s).
Definition modify (f : resolver_impl -> resolver_impl) : M unit :=
  fun s => (Returned tt, f s).

Declare Scope member_scope.
Delimit Scope member_scope with member.
Notation "x <- c ;; k" := (bind c (fun x => k))
  (at level 100, c at next level, right associativity) : member_scope.
Notation "c ;; k" := (bind c (fun _ => k))
  (at level 100, right associativity) : member_scope.
Local Open Scope member_scope.

Definition emit (e : effect) : M unit :=
  modify (fun s => set_io_trace (io_trace s ++ [e]) s).

(** A closure posted onto [io_] that will run [t.cancel()]. *)
Definition post_cancel (t : timer_id) : M unit :=
  modify (fun s => set_io_posted (io_posted s ++ [t]) s).

Definition set_timer (t : timer_id) (v : steady_timer) : resolver_impl -> resolver_impl :=
  match t with
  | the_wave_timer => set_wave_timer_ v
  | the_unicast_timer => set_unicast_timer_ v
  | the_resolve_timeout => set_resolve_timeout_expired_ v
  end.

(** [t.expires_after(timeout_sec(d)); t.async_wait(handler)]; which handler
    is waiting on which timer is fixed, see [timer_handler] below. *)
Definition arm (t : timer_id) (d : time) : M unit := modify (set_timer t (Some d)).

(** What the surroundings supply at the moment a handler or call runs: the
    reading of [lsl_clock()], and whether creating and starting a
    [resolve_attempt_udp] on a stack fails ([Some w]: it throws, [w] is
    [e.what()]). *)
Record world := {
  lsl_clock : time;
  attempt_error : protocol -> list endpoint -> option string
}.

(** [(std::size_t)minimum_] on a 64-bit target. *)
Definition size_t_of_int (i : Z) : Z := i mod 2 ^ 64.

Definition string_of_port (p : Z) : string :=
  NilZero.string_of_int (Z.to_int p).

(** Ports [base_port .. base_port + port_range - 1] as the [int p] of the
    constructor's loop. *)
Definition port_loop (base range : Z) : list Z :=
  map (fun i => base + Z.of_nat i) (seq 0 (Z.to_nat range)).

Section Resolver.

(** The collaborators that are not part of resolver_impl.cpp. *)

(** [pugi::xpath_query(query)]: [Some w] when the constructor throws, with
    [w] the exception's [what()]. *)
Variable xpath_query : string -> option string.

(** [FOREVER] of common.h. *)
Variable FOREVER : time.

(** [api_config::get_instance()]. *)
Variable get_instance : api_config.

(** [ip::make_address]; [None] when it throws. *)
Variable make_address : string -> option address.

(** [udp::resolver::resolve(host, service)]; [None] when it throws. *)
Variable udp_resolve : string -> string -> option (list address).

(** *** Construction *)

Definition resolver_impl_ctor : resolver_impl :=
  let cfg := get_instance in
  let mcast_port := multicast_port cfg in
  {| cfg_ := cfg;
     cancelled_ := false;
     expired_ := false;
     forget_after_ := FOREVER;
     fast_mode_ := true;
     query_ := "";
     minimum_ := 0;
     wait_until_ := 0;
     results_ := [];
     mcast_endpoints_ :=
       flat_map (fun mcast_addr =>
                   match make_address mcast_addr with
                   | Some a => [(a, mcast_port)]
                   | None => []
                   end) (multicast_addresses cfg);
     ucast_endpoints_ :=
       flat_map (fun peer =>
                   match udp_resolve peer (string_of_port (base_port cfg)) with
                   | Some rs =>
                       flat_map (fun res =>
                                   map (fun p => (res, p mod 2 ^ 16))
                                       (port_loop (base_port cfg) (port_range cfg)))
                                rs
                   | None => []
                   end) (known_peers cfg);
     udp_protocols_ :=
       (if allow_ipv6 cfg then [v6] else []) ++ (if allow_ipv4 cfg then [v4] else []);
     tcp_protocols_ :=
       (if allow_ipv6 cfg then [v6] else []) ++ (if allow_ipv4 cfg then [v4] else []);
     resolve_timeout_expired_ := None;
     wave_timer_ := None;
     unicast_timer_ := None;
     background_io_ := false;
     io_posted := [];
     io_trace := [] |}.

(** *** Queries *)

Definition check_query (query : string) : M unit :=
  match xpath_query query with
  | None => ret tt
  | Some w =>
      throw (invalid_argument
               ((("Invalid query '" ++ query) ++ "': ") ++ w)%string)
  end.

(** [nullptr] arguments are [None]. *)
Definition build_query (pred_or_prop value : option string) : string :=
  let query := "session_id='" in
  let query := (query ++ session_id get_instance)%string in
  let query := (query ++ "'")%string in
  let query := match pred_or_prop with
               | Some p => ((query ++ " and ") ++ p)%string
               | None => query
               end in
  let query := match value with
               | Some v => (((query ++ "='") ++ v) ++ "'")%string
               | None => query
               end in
  query.

(** *** Cancellation *)

Definition cancel_ongoing_resolve : M unit :=
  modify (set_expired_ true);;
  post_cancel the_wave_timer;;
  post_cancel the_unicast_timer;;
  post_cancel the_resolve_timeout;;
  emit cancel_all_registered.

Definition cancel : M unit :=
  modify (set_cancelled_ true);;
  cancel_ongoing_resolve.

(** *** Bursts *)

(** [new resolve_attempt_udp(...)] followed by [attempt->begin()]. *)
Definition start_attempt (w : world) (p : protocol) (targets : list endpoint)
           (max_rtt : time) : M unit :=
  s <- get;;
  match attempt_error w p targets with
  | None => emit (attempt_begin p targets (query_ s) max_rtt)
  | Some msg => throw (runtime_error msg)
  end.

(** The [for] loop shared by the two bursts: [ks] are the stacks still to
    be visited, [failures] the loop's counter, [size] is
    [udp_protocols_.size()]. *)
Fixpoint burst_loop (w : world) (lvl : verbosity) (msg : string)
         (targets : list endpoint) (max_rtt : time) (size : nat)
         (ks : list protocol) (failures : nat) : M unit :=
  match ks with
  | [] => ret tt
  | p :: ks' =>
      failures' <-
        try_catch
          (start_attempt w p targets max_rtt;; ret failures)
          (fun e =>
             let failures' := S failures in
             (if Nat.eqb failures' size
              then emit (log_f lvl (msg ++ what e)%string)
              else ret tt);;
             ret failures');;
      burst_loop w lvl msg targets max_rtt size ks' failures'
  end.

Definition multicast_failure_msg : string :=
  "Could not start a multicast resolve attempt for any of the allowed protocol stacks: ".

Definition unicast_failure_msg : string :=
  "Could not start a unicast resolve attempt for any of the allowed protocol stacks: ".

Definition udp_multicast_burst (w : world) : M unit :=
  s <- get;;
  burst_loop w ERROR multicast_failure_msg (mcast_endpoints_ s)
             (multicast_max_rtt (cfg_ s)) (List.length (udp_protocols_ s))
             (udp_protocols_ s) 0%nat.

Definition udp_unicast_burst (err : error_code) (w : world) : M unit :=
  if negb (error_code_eqb err operation_aborted) then
    s <- get;;
    burst_loop w WARNING unicast_failure_msg (ucast_endpoints_ s)
               (unicast_max_rtt (cfg_ s)) (List.length (udp_protocols_ s))
               (udp_protocols_ s) 0%nat
  else ret tt.

(** *** The wave scheduler *)

(** The condition of the [if] in [next_resolve_wave]. *)
Definition stopping_criteria (w : world) (s : resolver_impl) : bool :=
  let num_results := Z.of_nat (List.length (results_ s)) in
  cancelled_ s || expired_ s ||
  (negb (minimum_ s =? 0) && (num_results >=? size_t_of_int (minimum_ s))
   && (lsl_clock w >=? wait_until_ s)).

Definition is_empty {A} (l : list A) : bool :=
  match l with [] => true | _ => false end.

Definition next_resolve_wave (w : world) : M unit :=
  s <- get;;
  if stopping_criteria w s then
    cancel_ongoing_resolve
  else
    udp_multicast_burst w;;
    s <- get;;
    let wave_timer_timeout :=
      (if fast_mode_ s then 0 else continuous_resolve_interval (cfg_ s))
      + multicast_min_rtt (cfg_ s) in
    wave_timer_timeout <-
      (if negb (is_empty (ucast_endpoints_ s)) then
         arm the_unicast_timer (multicast_min_rtt (cfg_ s));;
         ret (wave_timer_timeout + unicast_min_rtt (cfg_ s))
       else ret wave_timer_timeout);;
    arm the_wave_timer wave_timer_timeout.

(** *** The I/O context *)

(** What [io_->run()] dispatches.  Which completions occur, in what order
    and at what time is decided by the network, the clock and other
    threads, so a run is driven by the sequence of completions it is
    given. *)
Inductive completion :=
| reply_received (k : string) (d : stream_info_impl) (now : time)
    (** a resolve attempt received and parsed a reply, and puts it into the
        store with [upsert] *)
| timer_completed (t : timer_id) (ec : error_code) (w : world)
    (** the handler waiting on [t] is invoked with [ec] *)
| posted_closure
    (** the oldest posted closure is run *)
| foreign_cancel
    (** another thread calls [cancel()] while the loop runs *).

(** The lambdas handed to [async_wait]. *)
Definition timer_handler (t : timer_id) (ec : error_code) (w : world) : M unit :=
  match t with
  | the_wave_timer =>
      if negb (error_code_eqb ec operation_aborted) then next_resolve_wave w
      else ret tt
  | the_unicast_timer => udp_unicast_burst ec w
  | the_resolve_timeout =>
      if negb (error_code_eqb ec operation_aborted) then cancel_ongoing_resolve
      else ret tt
  end.

Definition dispatch (c : completion) : M unit :=
  match c with
  | reply_received k d now =>
      modify (fun s => set_results_ (upsert k d now (results_ s)) s)
  | timer_completed t ec w =>
      (* a wait that ran to its end is no longer pending; an aborted one
         was either cancelled or replaced by a newer wait *)
      (match ec with
       | success => modify (set_timer t None)
       | operation_aborted => ret tt
       end);;
      timer_handler t ec w
  | posted_closure =>
      s <- get;;
      match io_posted s with
      | [] => ret tt
      | t :: rest => modify (fun s => set_timer t None (set_io_posted rest s))
      end
  | foreign_cancel => cancel
  end.

Fixpoint io_run (cs : list completion) : M unit :=
  match cs with
  | [] => ret tt
  | c :: cs' => dispatch c;; io_run cs'
  end.

(** *** The resolve functions *)

(** [t0] is the clock reading taken while the parameters are set up, [w]
    the surroundings of the first wave, [run] what [io_->run()] gets to
    dispatch. *)
Definition resolve_oneshot (query : string) (minimum : Z) (timeout : time)
           (minimum_time : time) (t0 : time) (w : world) (run : list completion)
  : M (list stream_info_impl) :=
  check_query query;;
  emit io_restart;;
  modify (set_query_ query);;
  modify (set_minimum_ minimum);;
  modify (set_wait_until_ (t0 + minimum_time));;
  modify (set_results_ []);;
  modify (set_forget_after_ FOREVER);;
  modify (set_fast_mode_ true);;
  modify (set_expired_ false);;
  (if negb (timeout =? FOREVER) then arm the_resolve_timeout timeout else ret tt);;
  next_resolve_wave w;;
  s <- get;;
  if negb (cancelled_ s) then
    io_run run;;
    s <- get;;
    ret (map entry_info (results_ s))
  else ret [].

Definition resolve_continuous (query : string) (forget_after : time) (w : world)
  : M unit :=
  check_query query;;
  emit io_restart;;
  modify (set_query_ query);;
  modify (set_minimum_ 0);;
  modify (set_wait_until_ 0);;
  modify (set_results_ []);;
  modify (set_forget_after_ forget_after);;
  modify (set_fast_mode_ false);;
  modify (set_expired_ false);;
  next_resolve_wave w;;
  modify (set_background_io_ true);;
  emit spawn_io_thread.

Definition results (max_results : N) (now : time) : M (list stream_info_impl) :=
  s <- get;;
  let expired_before := now - forget_after_ s in
  let (kept, output) := results_loop max_results expired_before (results_ s) [] in
  modify (set_results_ kept);;
  ret output.

(** [create_resolver]: the handle ([None] is [nullptr]) and the line
    logged when construction fails. *)
Definition create_resolver (forget_after : time) (pred_or_prop value : option string)
           (w : world) : option resolver_impl * list effect :=
  match resolve_continuous (build_query pred_or_prop value) forget_after w
                           resolver_impl_ctor with
  | (Returned _, resolver) => (Some resolver, [])
  | (Thrown e, _) =>
      (None,
       [log_f ERROR ("Error while creating a continuous_resolver: " ++ what e)%string])
  end.

(** *** Uses of the object over its life *)

Inductive call :=
| call_resolve_oneshot (query : string) (minimum : Z) (timeout minimum_time t0 : time)
                       (w : world) (run : list completion)
| call_resolve_continuous (query : string) (forget_after : time) (w : world)
| call_results (max_results : N) (now : time)
| call_cancel
| call_background (c : completion)
    (** the background worker dispatches one completion *).

Definition exec_call (c : call) (s : resolver_impl) : resolver_impl :=
  match c with
  | call_resolve_oneshot q m t mt t0 w run => snd (resolve_oneshot q m t mt t0 w run s)
  | call_resolve_continuous q fa w => snd (resolve_continuous q fa w s)
  | call_results mx now => snd (results mx now s)
  | call_cancel => snd (cancel s)
  | call_background c => snd (dispatch c s)
  end.

Definition exec_calls (cs : list call) (s : resolver_impl) : resolver_impl :=
  fold_left (fun s c => exec_call c s) cs s.

End Resolver.

(** ** Reference definitions used by the statements *)

(** The entries a read-out with threshold [expired_before] keeps. *)
Definition survives (expired_before : time) (e : result_entry) : bool :=
  negb (last_seen e <? expired_before).

(** The stop condition in the words of the design document:
    cancelled, or expired, or (minimum_count > 0 and result_count >=
    minimum_count and now >= wait_until). *)
Definition stop_condition (cancelled expired : bool) (minimum_count result_count : Z)
           (now wait_until : time) : Prop :=
  cancelled = true \/ expired = true \/
  (minimum_count > 0 /\ result_count >= minimum_count /\ now >= wait_until).

(** The effects of one burst, as a function of which attempts fail. *)
Fixpoint burst_effects (w : world) (lvl : verbosity) (msg : string)
         (targets : list endpoint) (query : string) (max_rtt : time) (size : nat)
         (ks : list protocol) (failures : nat) : list effect :=
  match ks with
  | [] => []
  | p :: ks' =>
      match attempt_error w p targets with
      | None =>
          attempt_begin p targets query max_rtt
            :: burst_effects w lvl msg targets query max_rtt size ks' failures
      | Some m =>
          (if Nat.eqb (S failures) size then [log_f lvl (msg ++ m)%string] else [])
            ++ burst_effects w lvl msg targets query max_rtt size ks' (S failures)
      end
  end.

(** The log lines among some effects. *)
Definition log_lines (es : list effect) : list (verbosity * string) :=
  flat_map (fun e => match e with log_f l m => [(l, m)] | _ => [] end) es.

Definition attempt_fails (w : world) (targets : list endpoint) (p : protocol) : bool :=
  match attempt_error w p targets with Some _ => true | None => false end.

(** The query of the interface table: session_id='<sid>', optionally
    extended by " and <pred_or_prop>='<value>'". *)
Definition session_query (sid : string) (extension : option (string * string)) : string :=
  (("session_id='" ++ sid) ++ "'"
   ++ match extension with
      | Some (p, v) => " and " ++ p ++ "='" ++ v ++ "'"
      | None => ""
      end)%string.

(** The effects of the multicast burst of a wave, and of a unicast burst. *)
Definition multicast_effects (w : world) (s : resolver_impl) : list effect :=
  burst_effects w ERROR multicast_failure_msg (mcast_endpoints_ s) (query_ s)
                (multicast_max_rtt (cfg_ s)) (List.length (udp_protocols_ s))
                (udp_protocols_ s) 0.

Definition unicast_effects (w : world) (s : resolver_impl) : list effect :=
  burst_effects w WARNING unicast_failure_msg (ucast_endpoints_ s) (query_ s)
                (unicast_max_rtt (cfg_ s)) (List.length (udp_protocols_ s))
                (udp_protocols_ s) 0.

(** The object after [cancel_ongoing_resolve]. *)
Definition stopped_state (s : resolver_impl) : resolver_impl :=
  snd (cancel_ongoing_resolve s).

(** The interval of the design document, step 2. *)
Definition wave_interval (s : resolver_impl) : time :=
  (if fast_mode_ s then 0 else continuous_resolve_interval (cfg_ s))
  + multicast_min_rtt (cfg_ s).

(** The object after a wave that was not stopped. *)
Definition wave_state (w : world) (s : resolver_impl) : resolver_impl :=
  let s1 := set_io_trace (io_trace s ++ multicast_effects w s) s in
  if is_empty (ucast_endpoints_ s) then
    set_wave_timer_ (Some (wave_interval s)) s1
  else
    set_wave_timer_ (Some (wave_interval s + unicast_min_rtt (cfg_ s)))
                    (set_unicast_timer_ (Some (multicast_min_rtt (cfg_ s))) s1).

(** The object once [resolve_oneshot] has set up its parameters and, for a
    finite timeout, armed the timeout timer. *)
Definition oneshot_setup (FOREVER : time) (query : string) (minimum : Z)
           (timeout minimum_time t0 : time) (s : resolver_impl) : resolver_impl :=
  let s1 :=
    set_expired_ false
      (set_fast_mode_ true
         (set_forget_after_ FOREVER
            (set_results_ []
               (set_wait_until_ (t0 + minimum_time)
                  (set_minimum_ minimum
                     (set_query_ query
                        (set_io_trace (io_trace s ++ [io_restart]) s))))))) in
  if negb (timeout =? FOREVER)
  then set_resolve_timeout_expired_ (Some timeout) s1
  else s1.

(** A member function that leaves a set [cancelled_] flag set. *)
Definition keeps_cancelled {A} (c : M A) : Prop :=
  forall s, cancelled_ s = true -> cancelled_ (snd (c s)) = true.

(** The last character of a string. *)
Fixpoint last_char (s : string) : option ascii :=
  match s with
  | EmptyString => None
  | String c EmptyString => Some c
  | String _ s' => last_char s'
  end.

(** ** A concrete installation, for the instances below

    Times are in milliseconds here. *)

Definition example_config : api_config :=
  {| allow_ipv6 := true;
     allow_ipv4 := true;
     base_port := 16572;
     port_range := 2;
     multicast_port := 16571;
     multicast_addresses := ["224.0.0.183"; "not-an-address"];
     known_peers := ["labpc"];
     session_id := "default";
     multicast_min_rtt := 500;
     multicast_max_rtt := 3000;
     unicast_min_rtt := 750;
     unicast_max_rtt := 5000;
     continuous_resolve_interval := 500 |}.

Definition example_FOREVER : time := 32000000000.

Definition example_xpath_query (query : string) : option string :=
  if String.eqb query "not a valid predicate" then Some "Incorrect query" else None.

Definition example_make_address (a : string) : option address :=
  if String.eqb a "not-an-address" then None else Some a.

Definition example_udp_resolve (host service : string) : option (list address) :=
  if String.eqb host "labpc" then Some ["192.168.0.7"] else None.

Definition example_resolver : resolver_impl :=
  resolver_impl_ctor example_FOREVER example_config example_make_address
                     example_udp_resolve.

(** Every attempt can be started. *)
Definition calm_world (now : time) : world :=
  {| lsl_clock := now; attempt_error := fun _ _ => None |}.

(** No IPv6 socket can be opened. *)
Definition v6_down_world (now : time) : world :=
  {| lsl_clock := now;
     attempt_error := fun p _ =>
                        match p with
                        | v6 => Some "Address family not supported by protocol"
                        | v4 => None
                        end |}.

(** What the loop of a one-shot resolve dispatches when one reply comes in
    and then another thread cancels: the reply, the cancel, the three posted
    timer cancellations, and the two aborted waits. *)
Definition example_run : list completion :=
  [ reply_received "uid-1" "<info><name>BioSemi</name></info>" 1100;
    foreign_cancel;
    posted_closure; posted_closure; posted_closure;
    timer_completed the_wave_timer operation_aborted (calm_world 1200);
    timer_completed the_unicast_timer operation_aborted (calm_world 1200) ].

(** ** common.cpp: [splitandtrim] and [trim]

    A range of iterators [it, end) into the input is the string of the
    characters it spans. *)

(** [std::isspace] in the "C" locale: space, and the control characters
    \t \n \v \f \r (codes 9 to 13); no character above 127 is white space
    there. *)
Definition isspace (c : ascii) : bool :=
  let n := nat_of_ascii c in
  Nat.eqb n 32 || (Nat.leb 9 n && Nat.leb n 13).

(** The first [while] of the loop: [it] is advanced over white space. *)
Fixpoint skip_space (it : string) : string :=
  match it with
  | String c rest => if isspace c then skip_space rest else it
  | EmptyString => it
  end.

(** [std::find(it, input.cend(), separator)]: the characters of [it, endit),
    and the range that starts after the separator found ([None] when there
    is none, that is when [find] returns [input.cend()]). *)
Fixpoint find_separator (separator : ascii) (it : string) : string * option string :=
  match it with
  | EmptyString => (EmptyString, None)
  | String c rest =>
      if Ascii.eqb c separator then (EmptyString, Some rest)
      else let (range, next) := find_separator separator rest in
           (String c range, next)
  end.

(** The second [while]: [endit] is moved back over white space, down to [it]
    at most. *)
Fixpoint shrink_space (range : string) : string :=
  match range with
  | EmptyString => EmptyString
  | String c rest =>
      match shrink_space rest with
      | EmptyString => if isspace c then EmptyString else String c EmptyString
      | kept => String c kept
      end
  end.

Definition is_empty_string (s : string) : bool :=
  match s with EmptyString => true | _ => false end.

(** The [while (true)] loop of [splitandtrim]; every round but the last
    moves [it] past one separator, and [fuel] bounds the number of rounds. *)
Fixpoint splitandtrim_loop (fuel : nat) (it : string) (separator : ascii)
         (keepempty : bool) (parts : list string) : option (list string) :=
  match fuel with
  | O => None
  | S fuel' =>
      let it := skip_space it in
      let (range, next) := find_separator separator it in
      let part := shrink_space range in
      let parts :=
        if negb (is_empty_string part) || keepempty then parts ++ [part] else parts in
      match next with
      | Some it' => splitandtrim_loop fuel' it' separator keepempty parts
      | None => Some parts
      end
  end.

Definition splitandtrim (input : string) (separator : ascii) (keepempty : bool)
  : option (list string) :=
  splitandtrim_loop (S (String.length input)) input separator keepempty [].

(** Whether [c] is one of [chars]. *)
Fixpoint char_in (c : ascii) (chars : string) : bool :=
  match chars with
  | EmptyString => false
  | String x rest => Ascii.eqb c x || char_in c rest
  end.

(** [std::string::find_first_not_of]; [None] is [npos]. *)
Fixpoint find_first_not_of (chars : string) (s : string) : option nat :=
  match s with
  | EmptyString => None
  | String c rest =>
      if char_in c chars then option_map S (find_first_not_of chars rest)
      else Some 0%nat
  end.

(** [std::string::find_last_not_of]; [None] is [npos]. *)
Fixpoint find_last_not_of (chars : string) (s : string) : option nat :=
  match s with
  | EmptyString => None
  | String c rest =>
      match find_last_not_of chars rest with
      | Some i => Some (S i)
      | None => if char_in c chars then None else Some 0%nat
      end
  end.

(** The characters [trim] removes: space, \t, \r, \n. *)
Definition trim_chars : string :=
  String (ascii_of_nat 32)
    (String (ascii_of_nat 9) (String (ascii_of_nat 13) (String (ascii_of_nat 10) ""))).

(** [input.substr(first, last - first + 1)]; [last - first + 1] is computed
    on [std::size_t] and written here on natural numbers, which agrees
    because [last >= first] whenever both are found. *)
Definition trim (input : string) : string :=
  match find_first_not_of trim_chars input, find_last_not_of trim_chars input with
  | Some first, Some last => String.substring first (last - first + 1) input
  | _, _ => ""
  end.

(** *** Reference definitions for the string helpers *)

Definition trim_space (c : ascii) : bool := char_in c trim_chars.

(** Every character of [s] satisfies [p]. *)
Fixpoint all_chars (p : ascii -> bool) (s : string) : bool :=
  match s with
  | EmptyString => true
  | String c rest => p c && all_chars p rest
  end.

(** [s] is empty or begins with a character that does not satisfy [p]. *)
Definition head_not (p : ascii -> bool) (s : string) : bool :=
  match s with
  | EmptyString => true
  | String c _ => negb (p c)
  end.

(** [s] is empty or ends with a character that does not satisfy [p]. *)
Definition tail_not (p : ascii -> bool) (s : string) : bool :=
  match last_char s with
  | None => true
  | Some c => negb (p c)
  end.

(** The pieces of [s] between the occurrences of [separator]. *)
Fixpoint split_on (separator : ascii) (s : string) : list string :=
  match s with
  | EmptyString => [EmptyString]
  | String c rest =>
      if Ascii.eqb c separator then EmptyString :: split_on separator rest
      else match split_on separator rest with
           | piece :: pieces => String c piece :: pieces
           | [] => [String c EmptyString]
           end
  end.

(** The pieces put together again, with [separator] between them. *)
Fixpoint join_with (separator : ascii) (pieces : list string) : string :=
  match pieces with
  | [] => EmptyString
  | [piece] => piece
  | piece :: rest => (piece ++ String separator (join_with separator rest))%string
  end.

(** White space removed at both ends. *)
Definition strip_space (s : string) : string := shrink_space (skip_space s).

(** What [splitandtrim] guarantees of a part. *)
Definition trimmed_part (separator : ascii) (keepempty : bool) (part : string) : Prop :=
  head_not isspace part = true /\
  tail_not isspace part = true /\
  char_in separator part = false /\
  (keepempty = false -> part <> EmptyString).


(** How often [c] occurs in [s]. *)
Fixpoint count_char (c : ascii) (s : string) : nat :=
  match s with
  | EmptyString => 0%nat
  | String x rest => ((if Ascii.eqb x c then 1 else 0) + count_char c rest)%nat
  end.

(** The parts that are pushed: all of them, or the non-empty ones. *)
Definition kept_parts (keepempty : bool) (parts : list string) : list string :=
  if keepempty then parts else filter (fun part => negb (is_empty_string part)) parts.

Definition not_space (c : ascii) : bool := negb (isspace c).


(** ** Reference definitions for the resolver's further properties *)

Definition is_attempt (e : effect) : bool :=
  match e with attempt_begin _ _ _ _ => true | _ => false end.

(** The attempts started so far. *)
Definition attempts (s : resolver_impl) : list effect :=
  filter is_attempt (io_trace s).

Definition is_reply (c : completion) : bool :=
  match c with reply_received _ _ _ => true | _ => false end.

(** The unicast timer's wait ran to its end. *)
Definition is_unicast_firing (c : completion) : bool :=
  match c with timer_completed the_unicast_timer success _ => true | _ => false end.

(** A completion that neither cancels nor is the timeout running out. *)
Definition is_quiet (c : completion) : bool :=
  match c with
  | foreign_cancel => false
  | timer_completed the_resolve_timeout success _ => false
  | _ => true
  end.

Definition timer_of (t : timer_id) (s : resolver_impl) : steady_timer :=
  match t with
  | the_wave_timer => wave_timer_ s
  | the_unicast_timer => unicast_timer_ s
  | the_resolve_timeout => resolve_timeout_expired_ s
  end.

(** The object after [dispatch c]. *)
Definition dispatch_state (c : completion) (s : resolver_impl) : resolver_impl :=
  match c with
  | reply_received k d now => set_results_ (upsert k d now (results_ s)) s
  | timer_completed t success w =>
      let s1 := set_timer t None s in
      match t with
      | the_wave_timer =>
          if stopping_criteria w s1 then stopped_state s1 else wave_state w s1
      | the_unicast_timer => set_io_trace (io_trace s1 ++ unicast_effects w s1) s1
      | the_resolve_timeout => stopped_state s1
      end
  | timer_completed _ operation_aborted _ => s
  | posted_closure =>
      match io_posted s with
      | [] => s
      | t :: rest => set_timer t None (set_io_posted rest s)
      end
  | foreign_cancel => snd (cancel s)
  end.

(** The object after [resolve_continuous] has set up its parameters. *)
Definition continuous_setup (query : string) (forget_after : time)
           (s : resolver_impl) : resolver_impl :=
  set_expired_ false
    (set_fast_mode_ false
       (set_forget_after_ forget_after
          (set_results_ []
             (set_wait_until_ 0
                (set_minimum_ 0
                   (set_query_ query
                      (set_io_trace (io_trace s ++ [io_restart]) s))))))).

(** The object after [io_run cs]. *)
Definition io_run_state (cs : list completion) (s : resolver_impl) : resolver_impl :=
  fold_left (fun s c => dispatch_state c s) cs s.

(** The object after the first wave of a resolve call. *)
Definition first_wave_state (w : world) (s : resolver_impl) : resolver_impl :=
  if stopping_criteria w s then stopped_state s else wave_state w s.

(** The object after a [resolve_continuous] whose query passed the check. *)
Definition continuous_state (query : string) (forget_after : time) (w : world)
           (s : resolver_impl) : resolver_impl :=
  let s1 := first_wave_state w (continuous_setup query forget_after s) in
  let s2 := set_background_io_ true s1 in
  set_io_trace (io_trace s2 ++ [spawn_io_thread]) s2.

(** A resolver in continuous mode that has not been stopped, with the
    configuration and unicast endpoints of [s0]. *)
Definition continuous_mode (s0 s : resolver_impl) : Prop :=
  minimum_ s = 0 /\ cancelled_ s = false /\ expired_ s = false /\
  fast_mode_ s = false /\ cfg_ s = cfg_ s0 /\
  ucast_endpoints_ s = ucast_endpoints_ s0.

(** The addresses the known peers resolve to, peer by peer. *)
Definition resolved_addresses (udp_resolve : string -> string -> option (list address))
           (cfg : api_config) : list address :=
  flat_map (fun peer =>
              match udp_resolve peer (string_of_port (base_port cfg)) with
              | Some rs => rs
              | None => []
              end) (known_peers cfg).

(** *** Further concrete objects for the instances *)

(** No socket can be opened at all. *)
Definition dead_world (now : time) : world :=
  {| lsl_clock := now;
     attempt_error := fun p _ =>
                        match p with
                        | v6 => Some "Address family not supported by protocol"
                        | v4 => Some "Network is unreachable"
                        end |}.

(** A resolver that has seen two streams, at 900 and at 950. *)
Definition example_resolver_with_results : resolver_impl :=
  set_results_ [ ("uid-1", ("<info><name>BioSemi</name></info>", 900));
                 ("uid-2", ("<info><name>Tobii</name></info>", 950)) ]
               example_resolver.

(** The example configuration with both stacks switched off. *)
Definition stackless_config : api_config :=
  {| allow_ipv6 := false;
     allow_ipv4 := false;
     base_port := base_port example_config;
     port_range := port_range example_config;
     multicast_port := multicast_port example_config;
     multicast_addresses := multicast_addresses example_config;
     known_peers := known_peers example_config;
     session_id := session_id example_config;
     multicast_min_rtt := multicast_min_rtt example_config;
     multicast_max_rtt := multicast_max_rtt example_config;
     unicast_min_rtt := unicast_min_rtt example_config;
     unicast_max_rtt := unicast_max_rtt example_config;
     continuous_resolve_interval := continuous_resolve_interval example_config |}.

Definition stackless_resolver : resolver_impl :=
  resolver_impl_ctor example_FOREVER stackless_config example_make_address
                     example_udp_resolve.

(** What the loop dispatches when nothing answers and the timeout runs out:
    a second wave, the timeout, and the three posted cancellations. *)
Definition example_timeout_run : list completion :=
  [ timer_completed the_wave_timer success (calm_world 1500);
    timer_completed the_resolve_timeout success (calm_world 2000);
    posted_closure; posted_closure; posted_closure ].

(** A wave timer that runs out although the resolve has been stopped. *)
Definition example_late_wave_run : list completion :=
  [ timer_completed the_wave_timer success (calm_world 1500); posted_closure ].

(** A reply, a unicast burst and the next wave of a continuous resolve. *)
Definition example_continuous_run : list completion :=
  [ reply_received "uid-1" "<info><name>BioSemi</name></info>" 1100;
    timer_completed the_unicast_timer success (calm_world 1500);
    timer_completed the_wave_timer success (calm_world 2250) ].

(** ** The result store: read-out *)

Lemma results_loop_spec (max_results : N) (expired_before : time) :
  forall it output,
    results_loop max_results expired_before it output =
    (filter (survives expired_before) it,
     output ++ firstn (N.to_nat max_results - List.length output)
                      (map entry_info (filter (survives expired_before) it))).
Proof.
  induction it as [|e rest IH]; intros output; simpl.
  - now rewrite firstn_nil, app_nil_r.
  - assert (Hs : survives expired_before e = negb (last_seen e <? expired_before))
      by reflexivity.
    rewrite Hs. destruct (last_seen e <? expired_before); simpl.
    + apply IH.
    + destruct (N.ltb_spec (N.of_nat (List.length output)) max_results) as [Hlt|Hge].
      * rewrite IH, length_app. simpl.
        replace (N.to_nat max_results - List.length output)%nat
          with (S (N.to_nat max_results - (List.length output + 1)))%nat by lia.
        simpl. now rewrite <- app_assoc.
      * rewrite IH.
        replace (N.to_nat max_results - List.length output)%nat with 0%nat by lia.
        reflexivity.
Qed.

Lemma snapshot_spec (max_results : N) (expired_before : time) (m : result_container) :
  snapshot max_results expired_before m =
  (filter (survives expired_before) m,
   firstn (N.to_nat max_results) (map entry_info (filter (survives expired_before) m))).
Proof.
  unfold snapshot. rewrite results_loop_spec. simpl. now rewrite Nat.sub_0_r.
Qed.

Lemma results_spec (max_results : N) (now : time) (s : resolver_impl) :
  results max_results now s =
  (Returned (snd (snapshot max_results (now - forget_after_ s) (results_ s))),
   set_results_ (fst (snapshot max_results (now - forget_after_ s) (results_ s))) s).
Proof.
  unfold results, bind, get, snapshot.
  destruct (results_loop max_results (now - forget_after_ s) (results_ s) [])
    as [kept output]. reflexivity.
Qed.

Lemma upsert_fresh (k : string) (d : stream_info_impl) (t : time) :
  forall m, ~ In k (map entry_key m) -> In (k, (d, t)) (upsert k d t m).
Proof.
  induction m as [|[k' [d' t']] rest IH]; simpl; intros Hk.
  - now left.
  - destruct (String.compare k k') eqn:Hc.
    + apply String.compare_eq_iff in Hc. subst. exfalso. apply Hk. now left.
    + now left.
    + right. apply IH. intros Hin. apply Hk. now right.
Qed.

(** C5: whatever the store holds and whatever [max_results] is, the vector
    returned by [results(max_results)] (and by the read-out loop started on
    any store with any threshold) has at most [max_results] elements. *)
Theorem results_at_most_max_results :
  forall (max_results : N) (now : time) (s : resolver_impl),
    (exists output,
        fst (results max_results now s) = Returned output /\
        (N.of_nat (List.length output) <= max_results)%N) /\
    (forall expired_before m,
        (N.of_nat (List.length (snd (snapshot max_results expired_before m)))
         <= max_results)%N).
Proof.
  intros max_results now s.
  assert (Hcap : forall expired_before m,
             (N.of_nat (List.length (snd (snapshot max_results expired_before m)))
              <= max_results)%N).
  { intros eb m. rewrite snapshot_spec. simpl.
    pose proof (firstn_le_length (N.to_nat max_results)
                  (map entry_info (filter (survives eb) m))). lia. }
  split; [|exact Hcap].
  rewrite results_spec. simpl. eexists. split; [reflexivity|apply Hcap].
Qed.

(** C6: once [results(max_results)] has returned, every entry left in the
    store was last seen at or after [expired_before = now - forget_after_],
    whether or not it made it into the returned vector. *)
Theorem results_leaves_no_stale_entry :
  forall (max_results : N) (now : time) (s : resolver_impl),
    Forall (fun e => last_seen e >= now - forget_after_ s)
           (results_ (snd (results max_results now s))).
Proof.
  intros max_results now s. rewrite results_spec, snapshot_spec. simpl.
  apply Forall_forall. intros e He. apply filter_In in He as [_ He].
  unfold survives in He. apply negb_true_iff, Z.ltb_ge in He. lia.
Qed.

(** C2, as amended: when [k] is not yet in the store, and the read-out is
    allowed at least as many results as there are surviving entries, the
    descriptor put in by [upsert(k, d, t)] is in the output of a following
    [snapshot(max_results, e)] with [t >= e]. *)
Theorem upsert_then_snapshot :
  forall (k : string) (d : stream_info_impl) (t e : time) (max_results : N)
         (m : result_container),
    ~ In k (map entry_key m) ->
    t >= e ->
    (N.of_nat (List.length (filter (survives e) (upsert k d t m))) <= max_results)%N ->
    In d (snd (snapshot max_results e (upsert k d t m))).
Proof.
  intros k d t e max_results m Hfresh Hte Hcap.
  rewrite snapshot_spec. simpl.
  rewrite firstn_all2 by (rewrite length_map; lia).
  change d with (entry_info (k, (d, t))). apply in_map.
  apply filter_In. split.
  - now apply upsert_fresh.
  - unfold survives, last_seen. simpl. apply negb_true_iff, Z.ltb_ge. lia.
Qed.

Lemma upsert_then_snapshot_witness :
  ~ In "b" (map entry_key [("a", ("da", 4))]) /\
  5 >= 3 /\
  (N.of_nat (List.length (filter (survives 3%Z) (upsert "b" "db" 5%Z [("a", ("da", 4%Z))])))
   <= 2)%N /\
  In "db" (snd (snapshot 2 3 (upsert "b" "db" 5 [("a", ("da", 4))]))).
Proof.
  assert (H1 : ~ In "b" (map entry_key [("a", ("da", 4))]))
    by (simpl; intros [H|[]]; discriminate).
  assert (H2 : 5 >= 3) by lia.
  assert (H3 : (N.of_nat (List.length
                            (filter (survives 3%Z) (upsert "b" "db" 5%Z [("a", ("da", 4%Z))])))
                <= 2)%N) by (vm_compute; discriminate).
  repeat split; try assumption.
  exact (upsert_then_snapshot "b" "db" 5 3 2%N [("a", ("da", 4))] H1 H2 H3).
Defined.

(** C2 as stated fails in three ways: with [max_results = 0] nothing is
    returned; a key already in the store keeps its first descriptor; and a
    cap smaller than the number of survivors cuts off the later keys. *)
Lemma upsert_then_snapshot_counterexample :
  (5 >= 3 /\ ~ In "d1" (snd (snapshot 0 3 (upsert "k1" "d1" 5 [])))) /\
  (5 >= 3 /\
   ~ In "d2" (snd (snapshot 10 3 (upsert "k1" "d2" 5 [("k1", ("d1", 4))])))) /\
  (5 >= 3 /\
   ~ In "db" (snd (snapshot 1 3 (upsert "b" "db" 5 [("a", ("da", 4))])))).
Proof.
  repeat split; try lia; vm_compute; intuition discriminate.
Qed.

(** ** Bursts *)

(** Runs the plumbing of a member function on the object at hand. *)
Ltac run_member :=
  repeat (progress (unfold bind, try_catch, get, throw, emit, post_cancel, arm,
                    modify, ret; cbv beta iota)).

Lemma set_io_trace_app (s : resolver_impl) (es es' : list effect) :
  set_io_trace (io_trace (set_io_trace (io_trace s ++ es) s) ++ es')
               (set_io_trace (io_trace s ++ es) s)
  = set_io_trace (io_trace s ++ es ++ es') s.
Proof. destruct s; simpl. now rewrite <- app_assoc. Qed.

Lemma set_io_trace_nil (s : resolver_impl) : set_io_trace (io_trace s ++ []) s = s.
Proof. destruct s; simpl. now rewrite app_nil_r. Qed.

Lemma burst_loop_run (w : world) (lvl : verbosity) (msg : string)
      (targets : list endpoint) (max_rtt : time) (size : nat) :
  forall ks failures s,
    burst_loop w lvl msg targets max_rtt size ks failures s =
    (Returned tt,
     set_io_trace
       (io_trace s
        ++ burst_effects w lvl msg targets (query_ s) max_rtt size ks failures) s).
Proof.
  induction ks as [|p ks' IH]; intros failures s; cbn [burst_loop burst_effects].
  - unfold ret. now rewrite set_io_trace_nil.
  - unfold start_attempt.
    destruct (attempt_error w p targets) as [m|]; run_member; cbn [what].
    + destruct (Nat.eqb (S failures) size); run_member.
      * rewrite IH, set_io_trace_app. reflexivity.
      * apply IH.
    + rewrite IH, set_io_trace_app. reflexivity.
Qed.

Lemma udp_multicast_burst_run (w : world) (s : resolver_impl) :
  udp_multicast_burst w s =
  (Returned tt, set_io_trace (io_trace s ++ multicast_effects w s) s).
Proof. unfold udp_multicast_burst, bind, get. apply burst_loop_run. Qed.

Lemma udp_unicast_burst_run (w : world) (s : resolver_impl) :
  udp_unicast_burst success w s =
  (Returned tt, set_io_trace (io_trace s ++ unicast_effects w s) s).
Proof. unfold udp_unicast_burst, bind, get. simpl. apply burst_loop_run. Qed.

Lemma udp_unicast_burst_aborted (w : world) (s : resolver_impl) :
  udp_unicast_burst operation_aborted w s = (Returned tt, s).
Proof. reflexivity. Qed.

Section BurstEffects.

Variables (w : world) (lvl : verbosity) (msg : string) (targets : list endpoint)
          (query : string) (max_rtt : time) (size : nat).

Local Arguments Nat.eqb : simpl never.

Lemma burst_effects_attempts :
  forall ks failures p,
    In p ks -> attempt_error w p targets = None ->
    In (attempt_begin p targets query max_rtt) (burst_effects w lvl msg targets query max_rtt size ks failures).
Proof.
  induction ks as [|k ks' IH]; intros failures p Hin Hok; simpl in *; [easy|].
  destruct Hin as [->|Hin].
  - rewrite Hok. now left.
  - destruct (attempt_error w k targets); [apply in_or_app|]; right; now apply IH.
Qed.

Lemma log_lines_app (es es' : list effect) :
  log_lines (es ++ es') = log_lines es ++ log_lines es'.
Proof. unfold log_lines. now rewrite flat_map_app. Qed.

Lemma burst_effects_log_level :
  forall ks failures, Forall (fun l => fst l = lvl) (log_lines (burst_effects w lvl msg targets query max_rtt size ks failures)).
Proof.
  induction ks as [|k ks' IH]; intros failures; simpl; [constructor|].
  destruct (attempt_error w k targets) as [m|]; simpl; [|apply IH].
  rewrite log_lines_app. apply Forall_app. split; [|apply IH].
  destruct (Nat.eqb (S failures) size); simpl; repeat constructor.
Qed.

Lemma burst_effects_log_count :
  forall ks failures,
    (failures + List.length ks <= size)%nat ->
    List.length (log_lines (burst_effects w lvl msg targets query max_rtt size ks failures)) =
    if forallb (attempt_fails w targets) ks
       && Nat.eqb (failures + List.length ks) size
       && negb (is_empty ks)
    then 1%nat else 0%nat.
Proof.
  induction ks as [|k ks' IH]; intros failures Hle; simpl in *.
  - now rewrite andb_false_r.
  - unfold attempt_fails at 1.
    destruct (attempt_error w k targets) as [m|]; simpl.
    + rewrite log_lines_app, length_app, IH by lia.
      rewrite andb_true_r.
      replace (failures + S (List.length ks'))%nat
        with (S failures + List.length ks')%nat by lia.
      destruct ks' as [|k' ks'']; simpl in *.
      * rewrite Nat.add_0_r, andb_false_r.
        destruct (Nat.eqb (S failures) size); reflexivity.
      * destruct (Nat.eqb_spec (S failures) size) as [Heq|Hne]; [lia|].
        simpl. now rewrite andb_true_r.
    + rewrite IH by lia.
      destruct (Nat.eqb_spec (failures + List.length ks') size) as [Heq|Hne]; [lia|].
      now rewrite andb_false_r.
Qed.

End BurstEffects.

Lemma burst_effects_logged_once_iff (w : world) (lvl : verbosity) (msg : string)
      (targets : list endpoint) (query : string) (max_rtt : time)
      (ks : list protocol) :
  ks <> [] ->
  let es := burst_effects w lvl msg targets query max_rtt (List.length ks) ks 0 in
  (List.length (log_lines es) <= 1)%nat /\
  (List.length (log_lines es) = 1%nat <->
   forall p, In p ks -> attempt_error w p targets <> None).
Proof.
  intros Hne es. subst es.
  rewrite burst_effects_log_count by (simpl; lia).
  simpl. rewrite Nat.eqb_refl, andb_true_r.
  replace (negb (is_empty ks)) with true by (destruct ks; [easy|reflexivity]).
  rewrite andb_true_r.
  destruct (forallb (attempt_fails w targets) ks) eqn:Hall.
  - split; [lia|]. split; [|reflexivity]. intros _ p Hp.
    rewrite forallb_forall in Hall. specialize (Hall p Hp).
    unfold attempt_fails in Hall. now destruct (attempt_error w p targets).
  - split; [lia|]. split; [discriminate|]. intros Hfail. exfalso.
    assert (Htrue : forallb (attempt_fails w targets) ks = true).
    { apply forallb_forall. intros p Hp. specialize (Hfail p Hp).
      unfold attempt_fails. now destruct (attempt_error w p targets). }
    congruence.
Qed.

(** C8: in a burst, every stack whose attempt can be started gets its
    attempt, whatever happens on the other stack; the burst writes at most
    one log line, and writes one exactly when the attempts on all allowed
    stacks fail, at level ERROR for the multicast burst and WARNING for the
    unicast burst; and the burst always returns normally.  At least one
    stack is allowed (api_config.h: "disable", "force" or "allow"). *)
Theorem bursts_tolerate_stack_failures :
  forall (w : world) (s : resolver_impl),
    udp_protocols_ s <> [] ->
    (exists es,
        udp_multicast_burst w s = (Returned tt, set_io_trace (io_trace s ++ es) s) /\
        (forall p, In p (udp_protocols_ s) ->
                   attempt_error w p (mcast_endpoints_ s) = None ->
                   In (attempt_begin p (mcast_endpoints_ s) (query_ s)
                                     (multicast_max_rtt (cfg_ s))) es) /\
        (List.length (log_lines es) <= 1)%nat /\
        (List.length (log_lines es) = 1%nat <->
         forall p, In p (udp_protocols_ s) ->
                   attempt_error w p (mcast_endpoints_ s) <> None) /\
        Forall (fun l => fst l = ERROR) (log_lines es)) /\
    (exists es,
        udp_unicast_burst success w s
        = (Returned tt, set_io_trace (io_trace s ++ es) s) /\
        (forall p, In p (udp_protocols_ s) ->
                   attempt_error w p (ucast_endpoints_ s) = None ->
                   In (attempt_begin p (ucast_endpoints_ s) (query_ s)
                                     (unicast_max_rtt (cfg_ s))) es) /\
        (List.length (log_lines es) <= 1)%nat /\
        (List.length (log_lines es) = 1%nat <->
         forall p, In p (udp_protocols_ s) ->
                   attempt_error w p (ucast_endpoints_ s) <> None) /\
        Forall (fun l => fst l = WARNING) (log_lines es)) /\
    udp_unicast_burst operation_aborted w s = (Returned tt, s).
Proof.
  intros w s Hne. split; [|split].
  - exists (multicast_effects w s). split; [apply udp_multicast_burst_run|].
    unfold multicast_effects. split; [|split; [|split]].
    + intros p Hp Hok. now apply burst_effects_attempts.
    + now apply burst_effects_logged_once_iff.
    + now apply burst_effects_logged_once_iff.
    + apply burst_effects_log_level.
  - exists (unicast_effects w s). split; [apply udp_unicast_burst_run|].
    unfold unicast_effects. split; [|split; [|split]].
    + intros p Hp Hok. now apply burst_effects_attempts.
    + now apply burst_effects_logged_once_iff.
    + now apply burst_effects_logged_once_iff.
    + apply burst_effects_log_level.
  - reflexivity.
Qed.

(** ** The wave scheduler *)

Lemma cancel_ongoing_resolve_run (s : resolver_impl) :
  cancel_ongoing_resolve s = (Returned tt, stopped_state s).
Proof. reflexivity. Qed.

Lemma next_resolve_wave_run (w : world) (s : resolver_impl) :
  next_resolve_wave w s =
  if stopping_criteria w s then (Returned tt, stopped_state s)
  else (Returned tt, wave_state w s).
Proof.
  unfold next_resolve_wave. run_member.
  destruct (stopping_criteria w s); [reflexivity|].
  rewrite udp_multicast_burst_run. unfold wave_state, wave_interval.
  destruct s as [cfg c e fa fm q mn wu rs mc uc ups tps rt wt ut bg ps tr].
  cbn [ucast_endpoints_ set_io_trace]. destruct uc; reflexivity.
Qed.

Lemma stopping_criteria_iff (w : world) (s : resolver_impl) :
  - 2 ^ 31 <= minimum_ s < 2 ^ 31 ->
  Z.of_nat (List.length (results_ s)) < 2 ^ 63 ->
  stopping_criteria w s = true <->
  stop_condition (cancelled_ s) (expired_ s) (minimum_ s)
                 (Z.of_nat (List.length (results_ s))) (lsl_clock w) (wait_until_ s).
Proof.
  intros Hint Hsize. unfold stopping_criteria, stop_condition, size_t_of_int.
  rewrite !orb_true_iff, !andb_true_iff, negb_true_iff, Z.eqb_neq, !Z.geb_le.
  assert (Hpos : 0 < minimum_ s ->
                 minimum_ s mod 2 ^ 64 = minimum_ s)
    by (intros; apply Z.mod_small; lia).
  assert (Hneg : minimum_ s < 0 ->
                 minimum_ s mod 2 ^ 64 = minimum_ s + 2 ^ 64).
  { intros. symmetry. apply Z.mod_unique with (q := -1); lia. }
  split.
  - intros [[Hc|He]|[[Hnz Hcount] Hclock]]; [now left|now right; left|].
    right; right.
    destruct (Z.lt_trichotomy (minimum_ s) 0) as [Hlt|[Heq|Hgt]].
    + rewrite Hneg in Hcount by assumption. lia.
    + contradiction.
    + rewrite Hpos in Hcount by assumption. lia.
  - intros [Hc|[He|(Hgt & Hcount & Hclock)]]; [now left; left|now left; right|].
    right. rewrite Hpos by lia. lia.
Qed.

(** C1: at the start of a wave the scheduler invokes
    [cancel_ongoing_resolve], and neither starts an attempt nor arms a
    timer, exactly when cancelled is set, or expired is set, or
    (minimum_count > 0 and the result count is at least minimum_count and
    the clock is at or past wait_until); otherwise it emits the multicast
    burst and arms the wave timer, without flagging expiry or posting timer
    cancellations.  [minimum_] is an [int], and a [std::map] cannot hold
    2^63 entries. *)
Theorem next_resolve_wave_stops_iff :
  forall (w : world) (s : resolver_impl),
    - 2 ^ 31 <= minimum_ s < 2 ^ 31 ->
    Z.of_nat (List.length (results_ s)) < 2 ^ 63 ->
    let stop :=
      stop_condition (cancelled_ s) (expired_ s) (minimum_ s)
                     (Z.of_nat (List.length (results_ s)))
                     (lsl_clock w) (wait_until_ s) in
    let s' := snd (next_resolve_wave w s) in
    (stop <-> next_resolve_wave w s = cancel_ongoing_resolve s) /\
    (stop ->
     io_trace s' = io_trace s ++ [cancel_all_registered] /\
     wave_timer_ s' = wave_timer_ s /\
     unicast_timer_ s' = unicast_timer_ s /\
     resolve_timeout_expired_ s' = resolve_timeout_expired_ s) /\
    (~ stop ->
     fst (next_resolve_wave w s) = Returned tt /\
     io_trace s' = io_trace s ++ multicast_effects w s /\
     (exists d, wave_timer_ s' = Some d) /\
     expired_ s' = expired_ s /\
     io_posted s' = io_posted s).
Proof.
  intros w s Hint Hsize stop s'. subst stop s'.
  pose proof (stopping_criteria_iff w s Hint Hsize) as Hiff.
  rewrite next_resolve_wave_run, cancel_ongoing_resolve_run.
  destruct (stopping_criteria w s) eqn:Hstop.
  - assert (Hs : stop_condition (cancelled_ s) (expired_ s) (minimum_ s)
                   (Z.of_nat (List.length (results_ s))) (lsl_clock w) (wait_until_ s))
      by now apply Hiff.
    split; [tauto|]. split; [|tauto].
    intros _. cbn. repeat split; reflexivity.
  - assert (Hs : ~ stop_condition (cancelled_ s) (expired_ s) (minimum_ s)
                   (Z.of_nat (List.length (results_ s))) (lsl_clock w) (wait_until_ s))
      by (intros H; apply Hiff in H; discriminate).
    split; [|split; [tauto|]].
    + split; [tauto|]. intros Heq. exfalso.
      assert (Hposted : io_posted (wave_state w s) = io_posted (stopped_state s))
        by congruence.
      apply (f_equal (@List.length _)) in Hposted. revert Hposted.
      unfold wave_state. destruct (is_empty (ucast_endpoints_ s)); cbn;
        rewrite !length_app; cbn; lia.
    + intros _. unfold wave_state.
      destruct (is_empty (ucast_endpoints_ s)); cbn; eauto 10.
Qed.

(** C7: in a wave that is not stopped, the wave timer is armed with
    (fast_mode ? 0 : continuous_resolve_interval) + multicast_min_rtt; when
    there are unicast endpoints, the unicast timer is armed with
    multicast_min_rtt (its handler starts the unicast burst) and
    unicast_min_rtt is added to the wave timer's interval; when there are
    none, the unicast timer is left alone and the interval stays as it is.
    The multicast burst has been emitted before either timer is armed. *)
Theorem next_resolve_wave_pacing :
  forall (w : world) (s : resolver_impl),
    stopping_criteria w s = false ->
    let s' := snd (next_resolve_wave w s) in
    let interval :=
      (if fast_mode_ s then 0 else continuous_resolve_interval (cfg_ s))
      + multicast_min_rtt (cfg_ s) in
    io_trace s' = io_trace s ++ multicast_effects w s /\
    (ucast_endpoints_ s <> [] ->
     unicast_timer_ s' = Some (multicast_min_rtt (cfg_ s)) /\
     wave_timer_ s' = Some (interval + unicast_min_rtt (cfg_ s)) /\
     forall w', timer_handler the_unicast_timer success w' s'
                = udp_unicast_burst success w' s') /\
    (ucast_endpoints_ s = [] ->
     unicast_timer_ s' = unicast_timer_ s /\
     wave_timer_ s' = Some interval).
Proof.
  intros w s Hgo s' interval. subst s' interval.
  rewrite next_resolve_wave_run, Hgo. unfold wave_state, wave_interval.
  destruct (ucast_endpoints_ s) as [|ep eps] eqn:Hu; cbn.
  - split; [reflexivity|]. split; [congruence|]. intros _. split; reflexivity.
  - split; [reflexivity|]. split; [|discriminate]. intros _.
    repeat split; reflexivity.
Qed.

(** ** Cancellation is never undone *)

Lemma kc_ret {A} (a : A) : keeps_cancelled (ret a).
Proof. intros s H. exact H. Qed.

Lemma kc_throw {A} (e : exn) : keeps_cancelled (@throw A e).
Proof. intros s H. exact H. Qed.

Lemma kc_get : keeps_cancelled get.
Proof. intros s H. exact H. Qed.

Lemma kc_modify (f : resolver_impl -> resolver_impl) :
  (forall s, cancelled_ s = true -> cancelled_ (f s) = true) ->
  keeps_cancelled (modify f).
Proof. intros Hf s H. now apply Hf. Qed.

Lemma kc_bind {A B} (c : M A) (k : A -> M B) :
  keeps_cancelled c -> (forall a, keeps_cancelled (k a)) ->
  keeps_cancelled (bind c k).
Proof.
  intros Hc Hk s H. unfold bind. specialize (Hc s H).
  destruct (c s) as [[a|e] s1]; simpl in *; [now apply Hk|exact Hc].
Qed.

Lemma kc_try_catch {A} (c : M A) (h : exn -> M A) :
  keeps_cancelled c -> (forall e, keeps_cancelled (h e)) ->
  keeps_cancelled (try_catch c h).
Proof.
  intros Hc Hh s H. unfold try_catch. specialize (Hc s H).
  destruct (c s) as [[a|e] s1]; simpl in *; [exact Hc|now apply Hh].
Qed.

Lemma kc_if {A} (b : bool) (c1 c2 : M A) :
  keeps_cancelled c1 -> keeps_cancelled c2 ->
  keeps_cancelled (if b then c1 else c2).
Proof. now destruct b. Qed.

Lemma kc_arm (t : timer_id) (d : time) : keeps_cancelled (arm t d).
Proof. apply kc_modify. intros s H. destruct t; exact H. Qed.

Create HintDb cancelled.
#[local] Hint Resolve kc_ret kc_throw kc_get kc_arm : cancelled.

(** Takes a member function apart along its sequencing. *)
Ltac kc :=
  repeat
    (lazymatch goal with
     | |- keeps_cancelled (bind _ _) => apply kc_bind; [|intros ?]
     | |- keeps_cancelled (try_catch _ _) => apply kc_try_catch; [|intros ?]
     | |- keeps_cancelled (if _ then _ else _) => apply kc_if
     | |- keeps_cancelled (modify _) =>
         apply kc_modify; intros ? ?;
         try solve [ match goal with H : cancelled_ _ = true |- _ => exact H end
                   | reflexivity ]
     | |- keeps_cancelled _ => solve [ auto with cancelled ]
     end).

Lemma kc_emit (e : effect) : keeps_cancelled (emit e).
Proof. unfold emit. kc. Qed.

Lemma kc_post_cancel (t : timer_id) : keeps_cancelled (post_cancel t).
Proof. unfold post_cancel. kc. Qed.

#[local] Hint Resolve kc_emit kc_post_cancel : cancelled.

Lemma kc_cancel_ongoing_resolve : keeps_cancelled cancel_ongoing_resolve.
Proof. unfold cancel_ongoing_resolve. kc. Qed.

#[local] Hint Resolve kc_cancel_ongoing_resolve : cancelled.

Lemma kc_cancel : keeps_cancelled cancel.
Proof. unfold cancel. kc. Qed.

Lemma kc_start_attempt (w : world) (p : protocol) (targets : list endpoint)
      (max_rtt : time) : keeps_cancelled (start_attempt w p targets max_rtt).
Proof.
  unfold start_attempt. kc. destruct (attempt_error w p targets); kc.
Qed.

#[local] Hint Resolve kc_cancel kc_start_attempt : cancelled.

Lemma kc_burst_loop (w : world) (lvl : verbosity) (msg : string)
      (targets : list endpoint) (max_rtt : time) (size : nat) :
  forall ks failures,
    keeps_cancelled (burst_loop w lvl msg targets max_rtt size ks failures).
Proof.
  induction ks as [|p ks' IH]; intros failures; cbn [burst_loop]; kc.
Qed.

#[local] Hint Resolve kc_burst_loop : cancelled.

Lemma kc_udp_multicast_burst (w : world) : keeps_cancelled (udp_multicast_burst w).
Proof. unfold udp_multicast_burst. kc. Qed.

Lemma kc_udp_unicast_burst (err : error_code) (w : world) :
  keeps_cancelled (udp_unicast_burst err w).
Proof. unfold udp_unicast_burst. kc. Qed.

#[local] Hint Resolve kc_udp_multicast_burst kc_udp_unicast_burst : cancelled.

Lemma kc_next_resolve_wave (w : world) : keeps_cancelled (next_resolve_wave w).
Proof. unfold next_resolve_wave. kc. Qed.

#[local] Hint Resolve kc_next_resolve_wave : cancelled.

Lemma kc_timer_handler (t : timer_id) (ec : error_code) (w : world) :
  keeps_cancelled (timer_handler t ec w).
Proof. destruct t; cbn [timer_handler]; kc. Qed.

#[local] Hint Resolve kc_timer_handler : cancelled.

Lemma kc_dispatch (c : completion) : keeps_cancelled (dispatch c).
Proof.
  destruct c as [k d now|t ec w| |]; cbn [dispatch]; kc.
  - destruct ec; kc. destruct t; assumption.
  - match goal with |- keeps_cancelled (match io_posted ?s with _ => _ end) =>
                    destruct (io_posted s) as [|t rest] end; kc.
    destruct t; assumption.
Qed.

#[local] Hint Resolve kc_dispatch : cancelled.

Lemma kc_io_run : forall cs, keeps_cancelled (io_run cs).
Proof. induction cs as [|c cs' IH]; cbn [io_run]; kc. Qed.

#[local] Hint Resolve kc_io_run : cancelled.

Lemma kc_results (max_results : N) (now : time) :
  keeps_cancelled (results max_results now).
Proof.
  unfold results. kc.
  match goal with |- keeps_cancelled (let (_, _) := ?x in _) => destruct x end. kc.
Qed.

Section ResolveFunctions.

Variable xpath_query : string -> option string.
Variable FOREVER : time.

Lemma kc_check_query (query : string) :
  keeps_cancelled (check_query xpath_query query).
Proof. unfold check_query. destruct (xpath_query query); kc. Qed.

#[local] Hint Resolve kc_check_query : cancelled.

Lemma kc_resolve_oneshot (query : string) (minimum : Z)
      (timeout minimum_time t0 : time) (w : world) (run : list completion) :
  keeps_cancelled
    (resolve_oneshot xpath_query FOREVER query minimum timeout minimum_time t0 w run).
Proof. unfold resolve_oneshot. kc. Qed.

Lemma kc_resolve_continuous (query : string) (forget_after : time) (w : world) :
  keeps_cancelled (resolve_continuous xpath_query query forget_after w).
Proof. unfold resolve_continuous. kc. Qed.

Lemma exec_call_keeps_cancelled (c : call) (s : resolver_impl) :
  cancelled_ s = true -> cancelled_ (exec_call xpath_query FOREVER c s) = true.
Proof.
  destruct c; cbn [exec_call].
  - apply kc_resolve_oneshot.
  - apply kc_resolve_continuous.
  - apply kc_results.
  - apply kc_cancel.
  - apply kc_dispatch.
Qed.

Lemma exec_calls_keeps_cancelled :
  forall (cs : list call) (s : resolver_impl),
    cancelled_ s = true -> cancelled_ (exec_calls xpath_query FOREVER cs s) = true.
Proof.
  unfold exec_calls. induction cs as [|c cs' IH]; intros s H; simpl; [exact H|].
  apply IH. now apply exec_call_keeps_cancelled.
Qed.

End ResolveFunctions.

(** ** The I/O loop always runs to its end *)

Lemma next_resolve_wave_returns (w : world) (s : resolver_impl) :
  fst (next_resolve_wave w s) = Returned tt.
Proof. rewrite next_resolve_wave_run. now destruct (stopping_criteria w s). Qed.

Lemma timer_handler_returns (t : timer_id) (ec : error_code) (w : world)
      (s : resolver_impl) :
  fst (timer_handler t ec w s) = Returned tt.
Proof.
  destruct t, ec; cbn [timer_handler error_code_eqb negb]; try reflexivity.
  - apply next_resolve_wave_returns.
  - now rewrite udp_unicast_burst_run.
Qed.

Lemma dispatch_returns (c : completion) (s : resolver_impl) :
  fst (dispatch c s) = Returned tt.
Proof.
  destruct c as [k d now|t ec w| |]; cbn [dispatch]; try reflexivity.
  - destruct ec; run_member; apply timer_handler_returns.
  - run_member. now destruct (io_posted s).
Qed.

Lemma io_run_returns : forall (cs : list completion) (s : resolver_impl),
    fst (io_run cs s) = Returned tt.
Proof.
  induction cs as [|c cs' IH]; intros s; cbn [io_run]; [reflexivity|].
  unfold bind. pose proof (dispatch_returns c s) as Hd.
  destruct (dispatch c s) as [o s1]. simpl in Hd. subst o. apply IH.
Qed.

(** ** The resolve functions *)

Lemma string_app_assoc (a b c : string) :
  ((a ++ b) ++ c = a ++ (b ++ c))%string.
Proof. induction a as [|x a IH]; simpl; [reflexivity|now rewrite IH]. Qed.

Section ResolveOneshot.

Variable xpath_query : string -> option string.
Variable FOREVER : time.

Lemma resolve_oneshot_run (query : string) (minimum : Z)
      (timeout minimum_time t0 : time) (w : world) (run : list completion)
      (s : resolver_impl) :
  xpath_query query = None ->
  resolve_oneshot xpath_query FOREVER query minimum timeout minimum_time t0 w run s =
  let s2 := snd (next_resolve_wave w (oneshot_setup FOREVER query minimum timeout
                                                     minimum_time t0 s)) in
  if negb (cancelled_ s2)
  then (Returned (map entry_info (results_ (snd (io_run run s2)))),
        snd (io_run run s2))
  else (Returned [], s2).
Proof.
  intros Hvalid. unfold resolve_oneshot, check_query, oneshot_setup.
  rewrite Hvalid. run_member.
  destruct (negb (timeout =? FOREVER)); run_member; cbn [set_timer];
    match goal with
    | |- context [next_resolve_wave w ?s1] =>
        pose proof (next_resolve_wave_returns w s1) as Hw;
        destruct (next_resolve_wave w s1) as [o s2]; simpl in Hw; subst o
    end;
    cbn [snd]; destruct (negb (cancelled_ s2)); try reflexivity;
    pose proof (io_run_returns run s2) as Hr;
    destruct (io_run run s2) as [o s3]; simpl in Hr; subst o; reflexivity.
Qed.

(** C3: with a query the checker rejects, both resolve functions throw
    [invalid_argument] and leave the object exactly as it was: query, wave
    state, result store, timers and posted closures are untouched, and
    nothing has been done to the outside world (no restart of the I/O
    context, no attempt started, no probe sent). *)
Theorem invalid_query_rejected_before_io :
  forall (query msg : string) (minimum : Z) (timeout minimum_time t0 forget_after : time)
         (w : world) (run : list completion) (s : resolver_impl),
    xpath_query query = Some msg ->
    resolve_oneshot xpath_query FOREVER query minimum timeout minimum_time t0 w run s
    = (Thrown (invalid_argument ("Invalid query '" ++ query ++ "': " ++ msg)%string), s)
    /\
    resolve_continuous xpath_query query forget_after w s
    = (Thrown (invalid_argument ("Invalid query '" ++ query ++ "': " ++ msg)%string), s).
Proof.
  intros query msg minimum timeout minimum_time t0 forget_after w run s Hbad.
  assert (Hmsg : ((("Invalid query '" ++ query) ++ "': ") ++ msg)%string
                 = ("Invalid query '" ++ query ++ "': " ++ msg)%string).
  { now rewrite !string_app_assoc. }
  unfold resolve_oneshot, resolve_continuous, check_query.
  rewrite Hbad, Hmsg. split; reflexivity.
Qed.

(** C4, as amended: for a query that passes the check, a [resolve_oneshot]
    on an object whose [cancelled_] flag is already set returns the empty
    vector, whatever the loop would have had to dispatch; on an object that
    is not cancelled on entry it returns the descriptors that are in the
    store when the I/O loop ends, also when a [cancel()] from another thread
    is what ended the loop. *)
Theorem resolve_oneshot_on_cancellation :
  forall (query : string) (minimum : Z) (timeout minimum_time t0 : time)
         (w : world) (run : list completion) (s : resolver_impl),
    xpath_query query = None ->
    let r := resolve_oneshot xpath_query FOREVER query minimum timeout
                             minimum_time t0 w run s in
    (cancelled_ s = true -> fst r = Returned []) /\
    (cancelled_ s = false ->
     fst r = Returned (map entry_info (results_ (snd r)))).
Proof.
  intros query minimum timeout minimum_time t0 w run s Hvalid r. subst r.
  rewrite resolve_oneshot_run by assumption. cbv zeta.
  set (s1 := oneshot_setup FOREVER query minimum timeout minimum_time t0 s).
  assert (Hs1 : cancelled_ s1 = cancelled_ s).
  { unfold s1, oneshot_setup. now destruct (negb (timeout =? FOREVER)). }
  assert (Hs2 : cancelled_ (snd (next_resolve_wave w s1)) = cancelled_ s).
  { rewrite next_resolve_wave_run, <- Hs1. unfold wave_state.
    destruct (stopping_criteria w s1); [reflexivity|].
    now destruct (is_empty (ucast_endpoints_ s1)). }
  rewrite Hs2. split; intros Hc; rewrite Hc; reflexivity.
Qed.


End ResolveOneshot.

(** ** The query built by [create_resolver] *)

Lemma string_app_nil_r (a : string) : (a ++ "")%string = a.
Proof. induction a as [|x a IH]; simpl; [reflexivity|now rewrite IH]. Qed.

Lemma last_char_append (a b : string) (c : ascii) :
  last_char b = Some c -> last_char (a ++ b) = Some c.
Proof.
  intros Hb. induction a as [|x a IH]; simpl; [exact Hb|].
  destruct (a ++ b)%string; [discriminate|exact IH].
Qed.

Lemma session_query_extended_ends_in_quote (sid p v : string) :
  last_char (session_query sid (Some (p, v))) = Some "'"%char.
Proof.
  unfold session_query.
  apply (last_char_append ("session_id='" ++ sid)). apply (last_char_append "'").
  apply (last_char_append " and "). apply (last_char_append p).
  apply (last_char_append "='"). apply (last_char_append v). reflexivity.
Qed.

Section CreateResolver.

Variable xpath_query : string -> option string.
Variable FOREVER : time.
Variable get_instance : api_config.
Variable make_address : string -> option address.
Variable udp_resolve : string -> string -> option (list address).

Lemma resolve_continuous_query (query : string) (forget_after : time) (w : world)
      (s : resolver_impl) :
  xpath_query query = None ->
  exists s', resolve_continuous xpath_query query forget_after w s = (Returned tt, s')
             /\ query_ s' = query.
Proof.
  intros Hvalid. unfold resolve_continuous, check_query. rewrite Hvalid. run_member.
  rewrite next_resolve_wave_run.
  match goal with
  | |- context [stopping_criteria w ?s1] => destruct (stopping_criteria w s1)
  end; cbv beta iota; (eexists; split; [reflexivity|]).
  - reflexivity.
  - unfold wave_state. now destruct (is_empty _).
Qed.


End CreateResolver.

(** ** Instances *)

Lemma next_resolve_wave_stops_iff_witness :
  let s := set_minimum_ (-1) example_resolver in
  let w := calm_world 1000 in
  (- 2 ^ 31 <= minimum_ s < 2 ^ 31 /\
   Z.of_nat (List.length (results_ s)) < 2 ^ 63) /\
  (stop_condition (cancelled_ s) (expired_ s) (minimum_ s)
                  (Z.of_nat (List.length (results_ s))) (lsl_clock w) (wait_until_ s)
   <-> next_resolve_wave w s = cancel_ongoing_resolve s).
Proof.
  cbv zeta.
  assert (H1 : - 2 ^ 31 <= minimum_ (set_minimum_ (-1) example_resolver) < 2 ^ 31)
    by (cbn; lia).
  assert (H2 : Z.of_nat (List.length (results_ (set_minimum_ (-1) example_resolver)))
               < 2 ^ 63) by (cbn; lia).
  split; [split; assumption|].
  exact (proj1 (next_resolve_wave_stops_iff (calm_world 1000)
                  (set_minimum_ (-1) example_resolver) H1 H2)).
Defined.

Lemma next_resolve_wave_pacing_witness :
  stopping_criteria (v6_down_world 1000) example_resolver = false /\
  wave_timer_ (snd (next_resolve_wave (v6_down_world 1000) example_resolver))
  = Some (0 + 500 + 750) /\
  unicast_timer_ (snd (next_resolve_wave (v6_down_world 1000) example_resolver))
  = Some 500.
Proof.
  assert (Hgo : stopping_criteria (v6_down_world 1000) example_resolver = false)
    by reflexivity.
  assert (Hu : ucast_endpoints_ example_resolver <> []) by discriminate.
  split; [exact Hgo|].
  destruct (next_resolve_wave_pacing (v6_down_world 1000) example_resolver Hgo)
    as (_ & Hsome & _).
  destruct (Hsome Hu) as (Hut & Hwt & _).
  split; [exact Hwt|exact Hut].
Defined.

Lemma bursts_tolerate_stack_failures_witness :
  udp_protocols_ example_resolver <> [] /\
  exists es,
    udp_multicast_burst (v6_down_world 1000) example_resolver
    = (Returned tt,
       set_io_trace (io_trace example_resolver ++ es) example_resolver) /\
    In (attempt_begin v4 (mcast_endpoints_ example_resolver)
                      (query_ example_resolver)
                      (multicast_max_rtt (cfg_ example_resolver))) es.
Proof.
  assert (Hne : udp_protocols_ example_resolver <> []) by discriminate.
  split; [exact Hne|].
  destruct (bursts_tolerate_stack_failures (v6_down_world 1000) example_resolver Hne)
    as ((es & Hrun & Hattempts & _) & _).
  exists es. split; [exact Hrun|].
  apply Hattempts; [right; left; reflexivity|reflexivity].
Defined.

Lemma invalid_query_rejected_before_io_witness :
  example_xpath_query "not a valid predicate" = Some "Incorrect query" /\
  resolve_oneshot example_xpath_query example_FOREVER "not a valid predicate"
                  1 500 0 1000 (calm_world 1000) [] example_resolver
  = (Thrown (invalid_argument "Invalid query 'not a valid predicate': Incorrect query"),
     example_resolver).
Proof.
  assert (Hbad : example_xpath_query "not a valid predicate" = Some "Incorrect query")
    by reflexivity.
  split; [exact Hbad|].
  exact (proj1 (invalid_query_rejected_before_io example_xpath_query example_FOREVER
                  "not a valid predicate" "Incorrect query" 1 500 0 1000 0
                  (calm_world 1000) [] example_resolver Hbad)).
Defined.

Lemma resolve_oneshot_on_cancellation_witness :
  example_xpath_query "session_id='default'" = None /\
  cancelled_ (snd (cancel example_resolver)) = true /\
  fst (resolve_oneshot example_xpath_query example_FOREVER "session_id='default'"
                       1 5000 0 1000 (calm_world 1000) example_run
                       (snd (cancel example_resolver)))
  = Returned [].
Proof.
  assert (Hvalid : example_xpath_query "session_id='default'" = None) by reflexivity.
  assert (Hc : cancelled_ (snd (cancel example_resolver)) = true) by reflexivity.
  split; [exact Hvalid|]. split; [exact Hc|].
  exact (proj1 (resolve_oneshot_on_cancellation example_xpath_query example_FOREVER
                  "session_id='default'" 1 5000 0 1000 (calm_world 1000) example_run
                  (snd (cancel example_resolver)) Hvalid) Hc).
Defined.

(** C4 as stated fails when the cancel arrives while the loop runs: the
    reply received before it is returned. *)
Lemma resolve_oneshot_cancelled_during_run_counterexample :
  In foreign_cancel example_run /\
  example_xpath_query "session_id='default'" = None /\
  fst (resolve_oneshot example_xpath_query example_FOREVER "session_id='default'"
                       0 example_FOREVER 0 1000 (calm_world 1000) example_run
                       example_resolver)
  = Returned ["<info><name>BioSemi</name></info>"] /\
  fst (resolve_oneshot example_xpath_query example_FOREVER "session_id='default'"
                       0 example_FOREVER 0 1000 (calm_world 1000) example_run
                       example_resolver)
  <> Returned [].
Proof.
  split; [right; left; reflexivity|]. split; [reflexivity|].
  split; [vm_compute; reflexivity|vm_compute; discriminate].
Qed.




(** ** common.cpp: [trim] *)

Lemma string_length_app (a b : string) :
  String.length (a ++ b)%string = (String.length a + String.length b)%nat.
Proof. induction a as [|x a IH]; simpl; [reflexivity|now rewrite IH]. Qed.

Lemma all_chars_app (p : ascii -> bool) (a b : string) :
  all_chars p (a ++ b)%string = all_chars p a && all_chars p b.
Proof.
  induction a as [|x a IH]; simpl; [reflexivity|]. now rewrite IH, andb_assoc.
Qed.

Lemma find_first_not_of_all (chars s : string) :
  all_chars (fun c => char_in c chars) s = true ->
  find_first_not_of chars s = None.
Proof.
  induction s as [|c s IH]; simpl; [reflexivity|].
  intros H. apply andb_true_iff in H as [Hc Hs]. now rewrite Hc, IH.
Qed.

Lemma find_last_not_of_all (chars s : string) :
  all_chars (fun c => char_in c chars) s = true ->
  find_last_not_of chars s = None.
Proof.
  induction s as [|c s IH]; simpl; [reflexivity|].
  intros H. apply andb_true_iff in H as [Hc Hs]. now rewrite IH, Hc.
Qed.

Lemma find_first_not_of_skip (chars pre s : string) :
  all_chars (fun c => char_in c chars) pre = true ->
  head_not (fun c => char_in c chars) s = true -> s <> EmptyString ->
  find_first_not_of chars (pre ++ s)%string = Some (String.length pre).
Proof.
  intros Hpre Hs Hne. induction pre as [|c pre IH]; simpl in *.
  - destruct s as [|a s]; [contradiction|]. simpl in *.
    apply negb_true_iff in Hs. now rewrite Hs.
  - apply andb_true_iff in Hpre as [Hc Hpre]. now rewrite Hc, IH.
Qed.

Lemma find_last_not_of_core (chars core suf : string) :
  tail_not (fun c => char_in c chars) core = true -> core <> EmptyString ->
  all_chars (fun c => char_in c chars) suf = true ->
  find_last_not_of chars (core ++ suf)%string = Some (String.length core - 1)%nat.
Proof.
  intros Htail Hne Hsuf. induction core as [|c core IH]; [contradiction|].
  simpl. destruct core as [|c' core'].
  - simpl. rewrite (find_last_not_of_all _ _ Hsuf).
    unfold tail_not in Htail. simpl in Htail. apply negb_true_iff in Htail.
    now rewrite Htail.
  - rewrite IH; [|exact Htail|discriminate]. simpl. now rewrite Nat.sub_0_r.
Qed.

Lemma find_last_not_of_skip (chars pre s : string) (i : nat) :
  find_last_not_of chars s = Some i ->
  find_last_not_of chars (pre ++ s)%string = Some (String.length pre + i)%nat.
Proof.
  intros Hs. induction pre as [|c pre IH]; simpl; [exact Hs|]. now rewrite IH.
Qed.

Lemma substring_skip (pre s : string) (n m : nat) :
  String.substring (String.length pre + n) m (pre ++ s)%string = String.substring n m s.
Proof. induction pre as [|c pre IH]; simpl; [reflexivity|exact IH]. Qed.

Lemma substring_prefix (core suf : string) :
  String.substring 0 (String.length core) (core ++ suf)%string = core.
Proof.
  induction core as [|c core IH]; simpl.
  - now destruct suf.
  - now rewrite IH.
Qed.

Lemma trim_core (pre core suf : string) :
  all_chars trim_space pre = true ->
  all_chars trim_space suf = true ->
  head_not trim_space core = true ->
  tail_not trim_space core = true ->
  trim (pre ++ core ++ suf) = core.
Proof.
  intros Hpre Hsuf Hhead Htail. unfold trim.
  destruct core as [|a m] eqn:Hcore.
  - simpl. rewrite find_first_not_of_all; [reflexivity|].
    fold trim_space. now rewrite all_chars_app, Hpre, Hsuf.
  - rewrite <- Hcore in *.
    assert (Hne : core <> EmptyString) by (rewrite Hcore; discriminate).
    rewrite find_first_not_of_skip; [|exact Hpre| |].
    + rewrite (find_last_not_of_skip _ _ _ (String.length core - 1)).
      * replace (String.length pre + (String.length core - 1) - String.length pre + 1)%nat
          with (String.length core)
          by (rewrite Hcore; simpl; lia).
        rewrite <- (Nat.add_0_r (String.length pre)) at 1.
        rewrite substring_skip. apply substring_prefix.
      * now apply find_last_not_of_core.
    + rewrite Hcore in *. exact Hhead.
    + rewrite Hcore. discriminate.
Qed.

(** X1: [trim] returns the input without its leading and trailing blanks
    (space, tab, carriage return, line feed): if the input is some blanks,
    then a core that is empty or begins and ends with a non-blank, then some
    blanks, the result is the core. *)
Theorem trim_removes_surrounding_blanks :
  forall pre core suf : string,
    all_chars trim_space pre = true ->
    all_chars trim_space suf = true ->
    head_not trim_space core = true ->
    tail_not trim_space core = true ->
    trim (pre ++ core ++ suf) = core.
Proof. exact trim_core. Qed.

Lemma last_char_cons (c : ascii) (s : string) :
  s <> EmptyString -> last_char (String c s) = last_char s.
Proof. destruct s; [contradiction|reflexivity]. Qed.

Lemma last_char_none (s : string) : last_char s = None -> s = EmptyString.
Proof.
  induction s as [|c s IH]; [reflexivity|]. simpl.
  destruct s; [discriminate|]. intros H. specialize (IH H). discriminate.
Qed.

Lemma blank_decomposition (p : ascii -> bool) :
  forall s : string,
    exists pre core suf,
      s = (pre ++ core ++ suf)%string /\
      all_chars p pre = true /\ all_chars p suf = true /\
      head_not p core = true /\ tail_not p core = true.
Proof.
  induction s as [|c s (pre & core & suf & Hs & Hpre & Hsuf & Hhead & Htail)].
  - exists EmptyString, EmptyString, EmptyString. repeat split.
  - destruct (p c) eqn:Hc.
    + exists (String c pre), core, suf. simpl. rewrite Hc, Hs. repeat split; assumption.
    + destruct core as [|a m] eqn:Hcore.
      * exists EmptyString, (String c EmptyString), (pre ++ suf)%string.
        simpl in *. subst s. repeat split.
        -- now rewrite all_chars_app, Hpre, Hsuf.
        -- now rewrite Hc.
        -- unfold tail_not. simpl. now rewrite Hc.
      * exists EmptyString, (String c (pre ++ core)), suf.
        rewrite <- Hcore in *. simpl. repeat split.
        -- rewrite Hs, string_app_assoc. reflexivity.
        -- exact Hsuf.
        -- now rewrite Hc.
        -- unfold tail_not in *. rewrite last_char_cons.
           ++ destruct (last_char core) as [z|] eqn:Hl.
              ** now rewrite (last_char_append pre core z Hl).
              ** apply last_char_none in Hl. congruence.
           ++ rewrite Hcore. destruct pre; discriminate.
Qed.

(** X2: for every input, [trim] cuts only blanks, at the two ends: the
    input is blanks, then the result, then blanks; the result neither begins
    nor ends with a blank; trimming the result again changes nothing; and
    the result is empty exactly when the input consists of blanks. *)
Theorem trim_result :
  forall input : string,
    (exists pre suf,
        input = (pre ++ trim input ++ suf)%string /\
        all_chars trim_space pre = true /\ all_chars trim_space suf = true) /\
    head_not trim_space (trim input) = true /\
    tail_not trim_space (trim input) = true /\
    trim (trim input) = trim input /\
    (trim input = EmptyString <-> all_chars trim_space input = true).
Proof.
  intros input.
  destruct (blank_decomposition trim_space input)
    as (pre & core & suf & Hs & Hpre & Hsuf & Hhead & Htail).
  assert (Ht : trim input = core)
    by (rewrite Hs; now apply trim_core).
  rewrite Ht. split; [|split; [|split; [|split]]].
  - exists pre, suf. now rewrite <- Hs.
  - exact Hhead.
  - exact Htail.
  - rewrite <- (string_app_nil_r core) at 1.
    change (core ++ "")%string with (EmptyString ++ core ++ EmptyString)%string.
    now apply trim_core.
  - split.
    + intros ->. rewrite Hs. simpl. now rewrite all_chars_app, Hpre, Hsuf.
    + intros Hall. rewrite Hs, !all_chars_app in Hall.
      apply andb_true_iff in Hall as [_ Hall].
      apply andb_true_iff in Hall as [Hall _].
      destruct core as [|a m]; [reflexivity|].
      simpl in Hhead, Hall. apply andb_true_iff in Hall as [Ha _].
      rewrite Ha in Hhead. discriminate.
Qed.

(** ** common.cpp: [splitandtrim] *)

Lemma skip_space_head (it : string) : head_not isspace (skip_space it) = true.
Proof.
  induction it as [|c it IH]; simpl; [reflexivity|].
  destruct (isspace c) eqn:Hc; [exact IH|]. simpl. now rewrite Hc.
Qed.

Lemma skip_space_length (it : string) :
  (String.length (skip_space it) <= String.length it)%nat.
Proof.
  induction it as [|c it IH]; simpl; [lia|].
  destruct (isspace c); simpl; lia.
Qed.

Lemma skip_space_fixed (it : string) :
  head_not isspace it = true -> skip_space it = it.
Proof.
  destruct it as [|c it]; simpl; [reflexivity|].
  intros H. apply negb_true_iff in H. now rewrite H.
Qed.

Lemma char_in_app (c : ascii) (a b : string) :
  char_in c (a ++ b)%string = char_in c a || char_in c b.
Proof.
  induction a as [|x a IH]; simpl; [reflexivity|]. now rewrite IH, orb_assoc.
Qed.

Lemma head_not_prefix (p : ascii -> bool) (a b : string) :
  head_not p (a ++ b)%string = true -> head_not p a = true.
Proof. destruct a; simpl; auto. Qed.

Lemma find_separator_spec (separator : ascii) :
  forall it range next,
    find_separator separator it = (range, next) ->
    char_in separator range = false /\
    it = (range ++ match next with
                   | Some it' => String separator it'
                   | None => EmptyString
                   end)%string.
Proof.
  induction it as [|c it IH]; simpl; intros range next H.
  - inversion H; subst. now split.
  - destruct (Ascii.eqb_spec c separator) as [->|Hne].
    + inversion H; subst. now split.
    + destruct (find_separator separator it) as [r n].
      inversion H; subst. destruct (IH r next eq_refl) as [Hin Hit].
      split.
      * simpl. rewrite Hin, orb_false_r. apply Ascii.eqb_neq. congruence.
      * simpl. now rewrite <- Hit.
Qed.

Lemma shrink_space_suffix (range : string) :
  exists suf, range = (shrink_space range ++ suf)%string /\
              all_chars isspace suf = true.
Proof.
  induction range as [|c range (suf & Hr & Hsuf)]; simpl.
  - exists EmptyString. now split.
  - destruct (shrink_space range) as [|k kept] eqn:Hk.
    + destruct (isspace c) eqn:Hc.
      * exists (String c suf). simpl in *. subst range. now rewrite Hc, Hsuf.
      * exists suf. simpl in *. subst range. now split.
    + exists suf. simpl in *. rewrite <- Hr. now split.
Qed.

Lemma shrink_space_tail (range : string) :
  tail_not isspace (shrink_space range) = true.
Proof.
  unfold tail_not. induction range as [|c range IH]; simpl; [reflexivity|].
  destruct (shrink_space range) as [|k kept] eqn:Hk.
  - destruct (isspace c) eqn:Hc; simpl; [reflexivity|now rewrite Hc].
  - rewrite last_char_cons by discriminate. exact IH.
Qed.

Lemma shrink_space_fixed (s : string) :
  tail_not isspace s = true -> shrink_space s = s.
Proof.
  unfold tail_not. induction s as [|c s IH]; simpl; [reflexivity|].
  destruct s as [|c' s'].
  - simpl. intros H. apply negb_true_iff in H. now rewrite H.
  - intros H. rewrite IH by exact H. reflexivity.
Qed.

Lemma splitandtrim_loop_parts (separator : ascii) (keepempty : bool) :
  forall fuel it parts,
    (String.length it < fuel)%nat ->
    Forall (trimmed_part separator keepempty) parts ->
    exists result,
      splitandtrim_loop fuel it separator keepempty parts = Some result /\
      Forall (trimmed_part separator keepempty) result.
Proof.
  induction fuel as [|fuel IH]; intros it parts Hfuel Hparts; [lia|].
  cbn [splitandtrim_loop].
  destruct (find_separator separator (skip_space it)) as [range next] eqn:Hfind.
  destruct (find_separator_spec _ _ _ _ Hfind) as [Hsep Hit].
  destruct (shrink_space_suffix range) as (suf & Hrange & Hsuf).
  assert (Hpart : negb (is_empty_string (shrink_space range)) || keepempty = true ->
                  trimmed_part separator keepempty (shrink_space range)).
  { intros Hkeep. repeat split.
    - apply head_not_prefix with (b := suf). rewrite <- Hrange.
      apply head_not_prefix
        with (b := match next with
                   | Some it' => String separator it'
                   | None => EmptyString
                   end).
      rewrite <- Hit. apply skip_space_head.
    - apply shrink_space_tail.
    - rewrite Hrange, char_in_app in Hsep. now apply orb_false_iff in Hsep.
    - intros -> Hempty. rewrite Hempty in Hkeep. discriminate. }
  assert (Hparts' :
            Forall (trimmed_part separator keepempty)
                   (if negb (is_empty_string (shrink_space range)) || keepempty
                    then parts ++ [shrink_space range] else parts)).
  { destruct (negb (is_empty_string (shrink_space range)) || keepempty);
      [|exact Hparts].
    apply Forall_app. split; [exact Hparts|]. constructor; [now apply Hpart|constructor]. }
  destruct next as [it'|].
  - apply IH; [|exact Hparts'].
    pose proof (skip_space_length it) as Hskip.
    rewrite Hit, string_length_app in Hskip. simpl in Hskip. lia.
  - eexists. split; [reflexivity|exact Hparts'].
Qed.

(** X3: [splitandtrim] always returns (its loop ends within one round per
    character of the input, plus one), and every part it returns begins and
    ends with a character that is not white space, unless it is empty,
    contains no separator, and is not empty when [keepempty] is off. *)
Theorem splitandtrim_parts :
  forall (input : string) (separator : ascii) (keepempty : bool),
    exists parts,
      splitandtrim input separator keepempty = Some parts /\
      Forall (fun part =>
                head_not isspace part = true /\
                tail_not isspace part = true /\
                char_in separator part = false /\
                (keepempty = false -> part <> EmptyString)) parts.
Proof.
  intros input separator keepempty. unfold splitandtrim.
  apply (splitandtrim_loop_parts separator keepempty); [lia|constructor].
Qed.

Lemma split_on_not_nil (separator : ascii) (s : string) : split_on separator s <> [].
Proof.
  destruct s as [|c s]; simpl; [discriminate|].
  destruct (Ascii.eqb c separator); [discriminate|].
  destruct (split_on separator s); discriminate.
Qed.

Lemma split_on_find (separator : ascii) :
  forall it,
    split_on separator it =
    match find_separator separator it with
    | (range, Some it') => range :: split_on separator it'
    | (range, None) => [range]
    end.
Proof.
  induction it as [|c it IH]; simpl; [reflexivity|].
  destruct (Ascii.eqb c separator); [reflexivity|].
  rewrite IH. destruct (find_separator separator it) as [range [it'|]]; reflexivity.
Qed.

Lemma find_separator_skip_space (separator : ascii) :
  isspace separator = false ->
  forall it,
    find_separator separator (skip_space it) =
    (skip_space (fst (find_separator separator it)),
     snd (find_separator separator it)).
Proof.
  intros Hsep. induction it as [|c it IH]; simpl; [reflexivity|].
  destruct (isspace c) eqn:Hc.
  - destruct (Ascii.eqb_spec c separator) as [->|Hne]; [congruence|].
    rewrite IH. destruct (find_separator separator it) as [range next].
    simpl. now rewrite Hc.
  - simpl. destruct (Ascii.eqb c separator); [reflexivity|].
    destruct (find_separator separator it) as [range next]. simpl. now rewrite Hc.
Qed.

Lemma kept_parts_cons (keepempty : bool) (part : string) (parts : list string) :
  kept_parts keepempty (part :: parts) =
  (if negb (is_empty_string part) || keepempty then [part] else [])
    ++ kept_parts keepempty parts.
Proof.
  unfold kept_parts. destruct keepempty; simpl.
  - now rewrite orb_true_r.
  - rewrite orb_false_r. now destruct (negb (is_empty_string part)).
Qed.

Lemma splitandtrim_loop_split (separator : ascii) (keepempty : bool) :
  isspace separator = false ->
  forall fuel it parts,
    (String.length it < fuel)%nat ->
    splitandtrim_loop fuel it separator keepempty parts =
    Some (parts ++ kept_parts keepempty (map strip_space (split_on separator it))).
Proof.
  intros Hsep. induction fuel as [|fuel IH]; intros it parts Hfuel; [lia|].
  cbn [splitandtrim_loop]. rewrite find_separator_skip_space by assumption.
  rewrite split_on_find.
  destruct (find_separator separator it) as [range next] eqn:Hfind.
  destruct (find_separator_spec _ _ _ _ Hfind) as [_ Hit].
  cbn [fst snd]. fold (strip_space range).
  destruct next as [it'|]; cbn [map]; rewrite kept_parts_cons.
  - rewrite IH.
    + destruct (negb (is_empty_string (strip_space range)) || keepempty);
        now rewrite <- ?app_assoc.
    + rewrite Hit, string_length_app in Hfuel. simpl in Hfuel. lia.
  - replace (kept_parts keepempty []) with (@nil string)
      by (unfold kept_parts; now destruct keepempty).
    rewrite app_nil_r.
    destruct (negb (is_empty_string (strip_space range)) || keepempty);
      [reflexivity|now rewrite app_nil_r].
Qed.

Lemma split_on_length (separator : ascii) (s : string) :
  List.length (split_on separator s) = S (count_char separator s).
Proof.
  induction s as [|c s IH]; simpl; [reflexivity|].
  destruct (Ascii.eqb c separator); simpl; [now rewrite IH|].
  destruct (split_on separator s) as [|piece pieces] eqn:Hs; simpl in *; lia.
Qed.

(** X4: when the separator is not a white-space character, [splitandtrim]
    cuts the input at every separator and strips white space from both ends
    of each piece; with [keepempty] it returns all the pieces, one more than
    there are separators, and without it the pieces that are not empty after
    stripping. *)
Theorem splitandtrim_splits_and_strips :
  forall (input : string) (separator : ascii) (keepempty : bool),
    isspace separator = false ->
    splitandtrim input separator keepempty =
    Some (kept_parts keepempty (map strip_space (split_on separator input))) /\
    List.length (map strip_space (split_on separator input))
    = S (count_char separator input).
Proof.
  intros input separator keepempty Hsep. split.
  - unfold splitandtrim. rewrite splitandtrim_loop_split by (assumption || lia).
    reflexivity.
  - rewrite length_map. apply split_on_length.
Qed.

Lemma join_with_cons (separator : ascii) (piece : string) (pieces : list string) :
  pieces <> [] ->
  join_with separator (piece :: pieces)
  = (piece ++ String separator (join_with separator pieces))%string.
Proof. destruct pieces; [contradiction|reflexivity]. Qed.

Lemma join_split_on (separator : ascii) :
  forall s, join_with separator (split_on separator s) = s.
Proof.
  induction s as [|c s IH]; simpl; [reflexivity|].
  pose proof (split_on_not_nil separator s) as Hne.
  destruct (Ascii.eqb_spec c separator) as [->|Hc].
  - rewrite join_with_cons by assumption. now rewrite IH.
  - destruct (split_on separator s) as [|piece pieces]; [contradiction|].
    destruct pieces as [|piece' pieces'].
    + simpl in *. now rewrite IH.
    + rewrite join_with_cons in * by discriminate. rewrite <- IH. reflexivity.
Qed.

Lemma split_on_all_chars (p : ascii -> bool) (separator : ascii) :
  forall s, all_chars p s = true ->
            Forall (fun piece => all_chars p piece = true) (split_on separator s).
Proof.
  induction s as [|c s IH]; simpl; intros H.
  - repeat constructor.
  - apply andb_true_iff in H as [Hc Hs]. specialize (IH Hs).
    destruct (Ascii.eqb c separator); [now constructor|].
    destruct (split_on separator s) as [|piece pieces].
    + repeat constructor. simpl. now rewrite Hc.
    + inversion IH; subst. constructor; [|assumption]. simpl. now rewrite Hc.
Qed.

Lemma all_chars_last (p : ascii -> bool) (s : string) (c : ascii) :
  all_chars p s = true -> last_char s = Some c -> p c = true.
Proof.
  induction s as [|x s IH]; simpl; [discriminate|].
  intros H Hl. apply andb_true_iff in H as [Hx Hs].
  destruct s; [inversion Hl; now subst|]. now apply IH.
Qed.

Lemma strip_space_fixed (s : string) :
  all_chars not_space s = true -> strip_space s = s.
Proof.
  intros H. unfold strip_space. rewrite skip_space_fixed.
  - apply shrink_space_fixed. unfold tail_not.
    destruct (last_char s) as [c|] eqn:Hl; [|reflexivity].
    exact (all_chars_last not_space s c H Hl).
  - destruct s as [|c s]; [reflexivity|]. simpl in *.
    now apply andb_true_iff in H as [Hc _].
Qed.

(** X5: on an input without white space, and with a separator that is not
    white space, [splitandtrim] with [keepempty] loses nothing: putting the
    separator back between the parts gives the input. *)
Theorem splitandtrim_join :
  forall (input : string) (separator : ascii),
    isspace separator = false ->
    all_chars not_space input = true ->
    exists parts,
      splitandtrim input separator true = Some parts /\
      join_with separator parts = input.
Proof.
  intros input separator Hsep Hinput.
  eexists. split.
  { unfold splitandtrim. rewrite splitandtrim_loop_split by (assumption || lia).
    reflexivity. }
  unfold kept_parts. cbn [app].
  replace (map strip_space (split_on separator input)) with (split_on separator input).
  - apply join_split_on.
  - pose proof (split_on_all_chars not_space separator input Hinput) as Hall.
    induction Hall as [|piece pieces Hpiece _ IH]; simpl; [reflexivity|].
    now rewrite strip_space_fixed, <- IH.
Qed.

Lemma shrink_space_not_empty (c : ascii) (range : string) :
  isspace c = false -> shrink_space (String c range) <> EmptyString.
Proof.
  intros Hc. simpl. destruct (shrink_space range); [rewrite Hc|]; discriminate.
Qed.

Lemma splitandtrim_loop_space_separator (separator : ascii) :
  isspace separator = true ->
  forall fuel it parts,
    (String.length it < fuel)%nat ->
    exists added,
      splitandtrim_loop fuel it separator true parts = Some (parts ++ added) /\
      added <> [] /\
      Forall (fun part => part <> EmptyString) (removelast added).
Proof.
  intros Hsep. induction fuel as [|fuel IH]; intros it parts Hfuel; [lia|].
  cbn [splitandtrim_loop].
  destruct (find_separator separator (skip_space it)) as [range next] eqn:Hfind.
  rewrite orb_true_r.
  destruct (find_separator_spec _ _ _ _ Hfind) as [_ Hit].
  destruct next as [it'|].
  - assert (Hlen : (String.length it' < fuel)%nat).
    { pose proof (skip_space_length it) as Hskip.
      rewrite Hit, string_length_app in Hskip. simpl in Hskip. lia. }
    destruct (IH it' (parts ++ [shrink_space range]) Hlen)
      as (added & Hrun & Hne & Hall).
    exists (shrink_space range :: added). split; [|split].
    + rewrite Hrun, <- app_assoc. reflexivity.
    + discriminate.
    + destruct added as [|a added']; [contradiction|].
      cbn [removelast] in *. constructor; [|exact Hall].
      pose proof (skip_space_head it) as Hhead.
      destruct (skip_space it) as [|c rest] eqn:Hskip; [discriminate|].
      simpl in Hhead. apply negb_true_iff in Hhead.
      simpl in Hfind. destruct (Ascii.eqb_spec c separator) as [->|Hc]; [congruence|].
      destruct (find_separator separator rest) as [r n].
      inversion Hfind; subst. now apply shrink_space_not_empty.
  - exists [shrink_space range]. split; [reflexivity|]. split; [discriminate|constructor].
Qed.

(** X6: when the separator is itself a white-space character, runs of
    separators and white space count as one cut: even with [keepempty], no
    part but the last one can be empty. *)
Theorem splitandtrim_space_separator :
  forall (input : string) (separator : ascii),
    isspace separator = true ->
    exists parts,
      splitandtrim input separator true = Some parts /\
      parts <> [] /\
      Forall (fun part => part <> EmptyString) (removelast parts).
Proof.
  intros input separator Hsep. unfold splitandtrim.
  destruct (splitandtrim_loop_space_separator separator Hsep
              (S (String.length input)) input [] (Nat.lt_succ_diag_r _))
    as (added & Hrun & Hne & Hall).
  exists added. now split.
Qed.

Lemma trim_removes_surrounding_blanks_witness :
  all_chars trim_space "  " = true /\
  all_chars trim_space " " = true /\
  head_not trim_space "a b" = true /\
  tail_not trim_space "a b" = true /\
  trim "  a b " = "a b".
Proof.
  assert (H1 : all_chars trim_space "  " = true) by reflexivity.
  assert (H2 : all_chars trim_space " " = true) by reflexivity.
  assert (H3 : head_not trim_space "a b" = true) by reflexivity.
  assert (H4 : tail_not trim_space "a b" = true) by reflexivity.
  split; [exact H1|]. split; [exact H2|]. split; [exact H3|]. split; [exact H4|].
  exact (trim_removes_surrounding_blanks "  " "a b" " " H1 H2 H3 H4).
Defined.

Lemma splitandtrim_splits_and_strips_witness :
  isspace ","%char = false /\
  splitandtrim " 224.0.0.183 , FF02::1,, labpc " ","%char false
  = Some ["224.0.0.183"; "FF02::1"; "labpc"].
Proof.
  assert (H : isspace ","%char = false) by reflexivity.
  split; [exact H|].
  exact (proj1 (splitandtrim_splits_and_strips " 224.0.0.183 , FF02::1,, labpc "
                  ","%char false H)).
Defined.

Lemma splitandtrim_join_witness :
  isspace ","%char = false /\
  all_chars not_space "a,,b," = true /\
  exists parts,
    splitandtrim "a,,b," ","%char true = Some parts /\
    join_with ","%char parts = "a,,b,".
Proof.
  assert (H1 : isspace ","%char = false) by reflexivity.
  assert (H2 : all_chars not_space "a,,b," = true) by reflexivity.
  split; [exact H1|]. split; [exact H2|].
  exact (splitandtrim_join "a,,b," ","%char H1 H2).
Defined.

Lemma splitandtrim_space_separator_witness :
  isspace " "%char = true /\
  exists parts,
    splitandtrim "a  b " " "%char true = Some parts /\
    parts <> [] /\
    Forall (fun part => part <> EmptyString) (removelast parts).
Proof.
  assert (H : isspace " "%char = true) by reflexivity.
  split; [exact H|].
  exact (splitandtrim_space_separator "a  b " " "%char H).
Defined.

(** ** [results]: further properties *)

Lemma filter_survives_fixed (expired_before : time) (m : result_container) :
  Forall (fun e => last_seen e >= expired_before) m ->
  filter (survives expired_before) m = m.
Proof.
  induction 1 as [|e m He _ IH]; simpl; [reflexivity|].
  unfold survives at 1. replace (last_seen e <? expired_before) with false
    by (symmetry; apply Z.ltb_ge; lia).
  simpl. now rewrite IH.
Qed.

Lemma set_results_same (s : resolver_impl) : set_results_ (results_ s) s = s.
Proof. now destruct s. Qed.

Lemma results_exact (max_results : N) (now : time) (s : resolver_impl) :
  results max_results now s =
  (Returned (firstn (N.to_nat max_results)
                    (map entry_info
                         (filter (survives (now - forget_after_ s)) (results_ s)))),
   set_results_ (filter (survives (now - forget_after_ s)) (results_ s)) s).
Proof. now rewrite results_spec, snapshot_spec. Qed.

(** X7: [results(max_results)] returns the descriptors of the first
    [max_results] entries, in the order of the store, among those last seen
    at or after [lsl_clock() - forget_after_], and leaves exactly those
    entries that were last seen at or after that time in the store: what
    is erased does not depend on [max_results], and no entry seen recently
    enough is erased. *)
Theorem results_returns_first_fresh_entries :
  forall (max_results : N) (now : time) (s : resolver_impl),
    let fresh e := negb (last_seen e <? now - forget_after_ s) in
    results max_results now s =
    (Returned (firstn (N.to_nat max_results) (map entry_info (filter fresh (results_ s)))),
     set_results_ (filter fresh (results_ s)) s).
Proof. intros. apply results_exact. Qed.

(** X8: when no entry is older than [forget_after_], [results] leaves the
    object as it is and returns the descriptors of the first [max_results]
    entries of the store. *)
Theorem results_without_stale_entries :
  forall (max_results : N) (now : time) (s : resolver_impl),
    Forall (fun e => last_seen e >= now - forget_after_ s) (results_ s) ->
    results max_results now s =
    (Returned (firstn (N.to_nat max_results) (map entry_info (results_ s))), s).
Proof.
  intros max_results now s Hfresh.
  rewrite results_exact, filter_survives_fixed by assumption.
  now rewrite set_results_same.
Qed.

Lemma filter_survives_twice (e1 e2 : time) (m : result_container) :
  e2 <= e1 ->
  filter (survives e2) (filter (survives e1) m) = filter (survives e1) m.
Proof.
  intros Hle. apply filter_survives_fixed. apply Forall_forall.
  intros e He. apply filter_In in He as [_ He]. unfold survives in He.
  apply negb_true_iff, Z.ltb_ge in He. lia.
Qed.

(** X9: a read-out that follows another one, at a clock reading that is not
    later, erases nothing more: it leaves the object as the first read-out
    left it and returns the first [max_results] descriptors of that store.
    Asked for the same number at the same time, it returns what the first
    one returned. *)
Theorem results_twice :
  forall (max1 max2 : N) (now1 now2 : time) (s : resolver_impl),
    now2 <= now1 ->
    let s1 := snd (results max1 now1 s) in
    results max2 now2 s1
    = (Returned (firstn (N.to_nat max2) (map entry_info (results_ s1))), s1) /\
    fst (results max1 now1 s1) = fst (results max1 now1 s).
Proof.
  intros max1 max2 now1 now2 s Hle s1. subst s1.
  rewrite (results_exact max1 now1 s). cbn [snd fst].
  rewrite !results_exact. cbn [results_ forget_after_ set_results_].
  split.
  - rewrite filter_survives_twice by lia. reflexivity.
  - rewrite filter_survives_twice by lia. reflexivity.
Qed.

(** X10: asking for fewer results gives a prefix of what asking for more
    gives, and the store is left the same either way. *)
Theorem results_cap_is_prefix :
  forall (max1 max2 : N) (now : time) (s : resolver_impl),
    (max1 <= max2)%N ->
    exists out1 out2,
      results max1 now s = (Returned out1, snd (results max2 now s)) /\
      fst (results max2 now s) = Returned out2 /\
      out1 = firstn (N.to_nat max1) out2.
Proof.
  intros max1 max2 now s Hle. rewrite !results_exact. cbn [fst snd].
  eexists. eexists. split; [reflexivity|]. split; [reflexivity|].
  rewrite firstn_firstn. f_equal. lia.
Qed.

(** ** Bursts: further properties *)

Lemma filter_is_attempt_app (es es' : list effect) :
  filter is_attempt (es ++ es') = filter is_attempt es ++ filter is_attempt es'.
Proof. apply filter_app. Qed.

Lemma burst_effects_attempts_exact (w : world) (lvl : verbosity) (msg : string)
      (targets : list endpoint) (query : string) (max_rtt : time) (size : nat) :
  forall ks failures,
    filter is_attempt (burst_effects w lvl msg targets query max_rtt size ks failures)
    = map (fun p => attempt_begin p targets query max_rtt)
          (filter (fun p => negb (attempt_fails w targets p)) ks).
Proof.
  induction ks as [|p ks' IH]; intros failures; cbn [burst_effects filter map];
    [reflexivity|].
  unfold attempt_fails at 1.
  destruct (attempt_error w p targets) as [m|]; cbn [negb].
  - rewrite filter_is_attempt_app, IH.
    now destruct (Nat.eqb (S failures) size).
  - cbn [filter is_attempt map]. now rewrite IH.
Qed.

(** X11: a burst starts one attempt for each allowed stack on which an
    attempt can be started, in the order of the stacks (IPv6 before IPv4),
    each against the burst's endpoint list (multicast or unicast), with the
    current query and the burst's budget ([multicast_max_rtt] or
    [unicast_max_rtt]); it starts no other attempt. *)
Theorem bursts_start_one_attempt_per_stack :
  forall (w : world) (s : resolver_impl),
    attempts (snd (udp_multicast_burst w s))
    = attempts s
      ++ map (fun p => attempt_begin p (mcast_endpoints_ s) (query_ s)
                                     (multicast_max_rtt (cfg_ s)))
             (filter (fun p => negb (attempt_fails w (mcast_endpoints_ s) p))
                     (udp_protocols_ s)) /\
    attempts (snd (udp_unicast_burst success w s))
    = attempts s
      ++ map (fun p => attempt_begin p (ucast_endpoints_ s) (query_ s)
                                     (unicast_max_rtt (cfg_ s)))
             (filter (fun p => negb (attempt_fails w (ucast_endpoints_ s) p))
                     (udp_protocols_ s)).
Proof.
  intros w s. rewrite udp_multicast_burst_run, udp_unicast_burst_run.
  unfold attempts, multicast_effects, unicast_effects. cbn [snd].
  split; destruct s; cbn; rewrite filter_is_attempt_app;
    now rewrite burst_effects_attempts_exact.
Qed.

Lemma burst_effects_all_fail (w : world) (lvl : verbosity) (msg : string)
      (targets : list endpoint) (query : string) (max_rtt : time) (size : nat)
      (last_stack : protocol) (m : string) :
  attempt_error w last_stack targets = Some m ->
  forall ks failures,
    (failures + List.length ks + 1 = size)%nat ->
    Forall (fun p => attempt_error w p targets <> None) ks ->
    burst_effects w lvl msg targets query max_rtt size (ks ++ [last_stack]) failures
    = [log_f lvl (msg ++ m)%string].
Proof.
  intros Hlast. induction ks as [|p ks' IH]; intros failures Hsize Hall;
    cbn [burst_effects app].
  - rewrite Hlast. simpl in Hsize.
    replace (Nat.eqb (S failures) size) with true
      by (symmetry; apply Nat.eqb_eq; lia).
    reflexivity.
  - apply Forall_cons_iff in Hall as [Hp Hall'].
    destruct (attempt_error w p targets) as [mp|]; [|contradiction].
    simpl in Hsize.
    replace (Nat.eqb (S failures) size) with false
      by (symmetry; apply Nat.eqb_neq; lia).
    cbn [app]. apply IH; [lia|exact Hall'].
Qed.

Lemma burst_all_fail (w : world) (lvl : verbosity) (msg : string)
      (targets : list endpoint) (max_rtt : time)
      (ks : list protocol) (last_stack : protocol) (m : string) (s : resolver_impl) :
  attempt_error w last_stack targets = Some m ->
  Forall (fun p => attempt_error w p targets <> None) ks ->
  burst_loop w lvl msg targets max_rtt (List.length (ks ++ [last_stack]))
             (ks ++ [last_stack]) 0 s
  = (Returned tt, set_io_trace (io_trace s ++ [log_f lvl (msg ++ m)%string]) s).
Proof.
  intros Hlast Hall. rewrite burst_loop_run.
  rewrite (burst_effects_all_fail w lvl msg targets (query_ s) max_rtt _ last_stack m Hlast);
    [reflexivity| |exact Hall].
  rewrite length_app. simpl. lia.
Qed.

(** X12: when the attempts on all allowed stacks fail, all a burst does is
    write one line: the fixed text followed by the [what()] of the failure
    on the last stack tried, at level ERROR for the multicast burst and
    WARNING for the unicast burst. *)
Theorem failed_burst_logs_last_error :
  forall (w : world) (s : resolver_impl) (ks : list protocol)
         (last_stack : protocol),
    udp_protocols_ s = ks ++ [last_stack] ->
    (forall m,
        attempt_error w last_stack (mcast_endpoints_ s) = Some m ->
        Forall (fun p => attempt_error w p (mcast_endpoints_ s) <> None) ks ->
        udp_multicast_burst w s
        = (Returned tt,
           set_io_trace
             (io_trace s ++ [log_f ERROR (multicast_failure_msg ++ m)%string]) s)) /\
    (forall m,
        attempt_error w last_stack (ucast_endpoints_ s) = Some m ->
        Forall (fun p => attempt_error w p (ucast_endpoints_ s) <> None) ks ->
        udp_unicast_burst success w s
        = (Returned tt,
           set_io_trace
             (io_trace s ++ [log_f WARNING (unicast_failure_msg ++ m)%string]) s)).
Proof.
  intros w s ks last_stack Hstacks. split; intros m Hlast Hall.
  - unfold udp_multicast_burst, bind, get. rewrite Hstacks.
    now apply burst_all_fail.
  - unfold udp_unicast_burst, bind, get. cbn [error_code_eqb negb]. rewrite Hstacks.
    now apply burst_all_fail.
Qed.

(** X13: with no protocol stack allowed, a burst does nothing at all: no
    attempt, no log line; the wave still arms its timers. *)
Theorem burst_without_stacks :
  forall (w : world) (s : resolver_impl),
    udp_protocols_ s = [] ->
    udp_multicast_burst w s = (Returned tt, s) /\
    udp_unicast_burst success w s = (Returned tt, s) /\
    (stopping_criteria w s = false ->
     attempts (snd (next_resolve_wave w s)) = attempts s /\
     io_trace (snd (next_resolve_wave w s)) = io_trace s /\
     exists d, wave_timer_ (snd (next_resolve_wave w s)) = Some d).
Proof.
  intros w s Hnone.
  assert (Hm : multicast_effects w s = []) by (unfold multicast_effects; now rewrite Hnone).
  assert (Hu : unicast_effects w s = []) by (unfold unicast_effects; now rewrite Hnone).
  rewrite udp_multicast_burst_run, udp_unicast_burst_run, Hm, Hu, set_io_trace_nil.
  split; [reflexivity|]. split; [reflexivity|]. intros Hgo.
  rewrite next_resolve_wave_run, Hgo. unfold wave_state, attempts. rewrite Hm.
  destruct (is_empty (ucast_endpoints_ s)); cbn; rewrite app_nil_r; eauto.
Qed.

(** ** The I/O loop: further properties *)

Lemma next_resolve_wave_run_pair (w : world) (s : resolver_impl) :
  next_resolve_wave w s =
  (Returned tt, if stopping_criteria w s then stopped_state s else wave_state w s).
Proof. rewrite next_resolve_wave_run. now destruct (stopping_criteria w s). Qed.

Lemma dispatch_run (c : completion) (s : resolver_impl) :
  dispatch c s = (Returned tt, dispatch_state c s).
Proof.
  destruct c as [k d now|t ec w| |]; cbn [dispatch dispatch_state];
    try reflexivity.
  - destruct ec; run_member.
    + destruct t; cbn [timer_handler error_code_eqb negb].
      * apply next_resolve_wave_run_pair.
      * apply udp_unicast_burst_run.
      * reflexivity.
    + destruct t; reflexivity.
  - run_member. now destruct (io_posted s).
Qed.

Lemma io_run_run : forall (cs : list completion) (s : resolver_impl),
    io_run cs s = (Returned tt, io_run_state cs s).
Proof.
  induction cs as [|c cs' IH]; intros s; cbn [io_run]; [reflexivity|].
  unfold bind. rewrite dispatch_run. apply IH.
Qed.

Lemma dispatch_state_results (c : completion) (s : resolver_impl) :
  is_reply c = false -> results_ (dispatch_state c s) = results_ s.
Proof.
  destruct c as [k d now|t ec w| |]; cbn [is_reply dispatch_state];
    [discriminate| | |reflexivity]; intros _.
  - destruct ec; [|reflexivity]. destruct t; cbn [set_timer]; try reflexivity.
    destruct (stopping_criteria w _); [reflexivity|].
    unfold wave_state. now destruct (is_empty _).
  - destruct (io_posted s) as [|t rest]; [reflexivity|]. now destruct t.
Qed.

Lemma io_run_state_results :
  forall (cs : list completion) (s : resolver_impl),
    forallb (fun c => negb (is_reply c)) cs = true ->
    results_ (io_run_state cs s) = results_ s.
Proof.
  unfold io_run_state.
  induction cs as [|c cs' IH]; intros s H; simpl in *; [reflexivity|].
  apply andb_true_iff in H as [Hc Hcs]. apply negb_true_iff in Hc.
  rewrite IH by assumption. now apply dispatch_state_results.
Qed.

Lemma first_wave_state_results (w : world) (s : resolver_impl) :
  results_ (first_wave_state w s) = results_ s.
Proof.
  unfold first_wave_state, wave_state.
  destruct (stopping_criteria w s); [reflexivity|]. now destruct (is_empty _).
Qed.

Section FurtherResolveProperties.

Variable xpath_query : string -> option string.
Variable FOREVER : time.

Lemma resolve_oneshot_exact (query : string) (minimum : Z)
      (timeout minimum_time t0 : time) (w : world) (run : list completion)
      (s : resolver_impl) :
  xpath_query query = None ->
  resolve_oneshot xpath_query FOREVER query minimum timeout minimum_time t0 w run s =
  let s2 := first_wave_state w (oneshot_setup FOREVER query minimum timeout
                                              minimum_time t0 s) in
  if negb (cancelled_ s2)
  then (Returned (map entry_info (results_ (io_run_state run s2))), io_run_state run s2)
  else (Returned [], s2).
Proof.
  intros Hvalid. rewrite resolve_oneshot_run by assumption. cbv zeta.
  rewrite next_resolve_wave_run_pair. cbn [snd]. fold (first_wave_state w
    (oneshot_setup FOREVER query minimum timeout minimum_time t0 s)).
  now rewrite io_run_run.
Qed.

Lemma resolve_continuous_exact (query : string) (forget_after : time) (w : world)
      (s : resolver_impl) :
  xpath_query query = None ->
  resolve_continuous xpath_query query forget_after w s =
  (Returned tt, continuous_state query forget_after w s).
Proof.
  intros Hvalid. unfold resolve_continuous, check_query. rewrite Hvalid. run_member.
  rewrite next_resolve_wave_run_pair. run_member.
  unfold continuous_state, first_wave_state, continuous_setup. cbv zeta. reflexivity.
Qed.

(** X14: [resolve_oneshot] starts from an empty store: when no reply comes
    in while it runs, it returns the empty vector, whatever an earlier
    resolve had left in the store. *)
Theorem resolve_oneshot_forgets_earlier_results :
  forall (query : string) (minimum : Z) (timeout minimum_time t0 : time)
         (w : world) (run : list completion) (s : resolver_impl),
    xpath_query query = None ->
    forallb (fun c => negb (is_reply c)) run = true ->
    fst (resolve_oneshot xpath_query FOREVER query minimum timeout minimum_time
                         t0 w run s)
    = Returned [].
Proof.
  intros query minimum timeout minimum_time t0 w run s Hvalid Hrun.
  rewrite resolve_oneshot_exact by assumption. cbv zeta.
  destruct (negb (cancelled_ _)); [|reflexivity]. cbn [fst].
  rewrite io_run_state_results, first_wave_state_results by assumption.
  unfold oneshot_setup. now destruct (negb (timeout =? FOREVER)).
Qed.

End FurtherResolveProperties.

(** ** Stopping and going on *)

Lemma stopping_criteria_expired (w : world) (s : resolver_impl) :
  expired_ s = true -> stopping_criteria w s = true.
Proof. intros H. unfold stopping_criteria. rewrite H. now rewrite orb_true_r. Qed.

Lemma dispatch_state_expired (c : completion) (s : resolver_impl) :
  expired_ s = true ->
  is_unicast_firing c = false ->
  expired_ (dispatch_state c s) = true /\
  attempts (dispatch_state c s) = attempts s.
Proof.
  intros He Hc. unfold attempts.
  destruct c as [k d now|t ec w| |]; cbn [dispatch_state].
  - now split.
  - destruct ec; [|now split].
    destruct t; cbn [set_timer]; [|discriminate|].
    + rewrite stopping_criteria_expired by exact He.
      split; [reflexivity|]. cbn. rewrite filter_is_attempt_app. cbn.
      now rewrite app_nil_r.
    + split; [reflexivity|]. cbn. rewrite filter_is_attempt_app. cbn.
      now rewrite app_nil_r.
  - destruct (io_posted s) as [|t rest]; [now split|]. now destruct t.
  - split; [reflexivity|]. cbn. rewrite filter_is_attempt_app. cbn.
    now rewrite app_nil_r.
Qed.

(** X16: once [expired_] is set (by the timeout, a cancel, or the stopping
    criteria), it stays set for the rest of the run, and no wave starts an
    attempt any more: whatever the loop dispatches, apart from a unicast
    timer whose wait ran to its end, the attempts started stay what they
    were. *)
Theorem expired_resolver_starts_no_attempt :
  forall (run : list completion) (s : resolver_impl),
    expired_ s = true ->
    forallb (fun c => negb (is_unicast_firing c)) run = true ->
    fst (io_run run s) = Returned tt /\
    expired_ (snd (io_run run s)) = true /\
    attempts (snd (io_run run s)) = attempts s.
Proof.
  intros run s He Hrun. rewrite io_run_run. cbn [fst snd].
  split; [reflexivity|]. unfold io_run_state. revert s He Hrun.
  induction run as [|c run' IH]; intros s He Hrun; simpl in *; [now split|].
  apply andb_true_iff in Hrun as [Hc Hrun]. apply negb_true_iff in Hc.
  destruct (dispatch_state_expired c s He Hc) as [He' Ha'].
  destruct (IH (dispatch_state c s) He' Hrun) as [He'' Ha''].
  split; [exact He''|]. now rewrite Ha''.
Qed.

(** X17: the unicast burst looks at its error code only, not at
    [cancelled_] or [expired_]: if the unicast timer's wait runs to its end
    after [cancel()], before the posted cancellation of the timer is run,
    the burst still starts an attempt on every stack that can start one. *)
Theorem unicast_burst_after_cancel :
  forall (w : world) (s : resolver_impl) (p : protocol),
    In p (udp_protocols_ s) ->
    attempt_error w p (ucast_endpoints_ s) = None ->
    let s' := snd (dispatch (timer_completed the_unicast_timer success w)
                            (snd (cancel s))) in
    cancelled_ s' = true /\
    In (attempt_begin p (ucast_endpoints_ s) (query_ s) (unicast_max_rtt (cfg_ s)))
       (io_trace s').
Proof.
  intros w s p Hp Hok s'. subst s'. rewrite dispatch_run. cbn [snd dispatch_state].
  split; [reflexivity|]. cbn [io_trace set_io_trace]. apply in_or_app. right.
  unfold unicast_effects. cbn.
  now apply burst_effects_attempts.
Qed.

Lemma stopping_criteria_continuous (s0 s : resolver_impl) (w : world) :
  continuous_mode s0 s -> stopping_criteria w s = false.
Proof.
  intros (Hm & Hc & He & _). unfold stopping_criteria. now rewrite Hm, Hc, He.
Qed.

Lemma dispatch_state_continuous (s0 : resolver_impl) (c : completion)
      (s : resolver_impl) :
  continuous_mode s0 s -> is_quiet c = true ->
  continuous_mode s0 (dispatch_state c s).
Proof.
  intros Hs Hc.
  destruct c as [k d now|t ec w| |]; cbn [dispatch_state is_quiet] in *.
  - exact Hs.
  - destruct ec; [|exact Hs].
    destruct t; cbn [set_timer]; [|exact Hs|discriminate].
    assert (Hs1 : continuous_mode s0 (set_wave_timer_ None s)) by exact Hs.
    rewrite (stopping_criteria_continuous s0 _ w Hs1).
    unfold wave_state. now destruct (is_empty _).
  - destruct (io_posted s) as [|t rest]; [exact Hs|]. now destruct t.
  - discriminate.
Qed.

Lemma io_run_state_continuous (s0 : resolver_impl) :
  forall (run : list completion) (s : resolver_impl),
    continuous_mode s0 s -> forallb is_quiet run = true ->
    continuous_mode s0 (io_run_state run s).
Proof.
  unfold io_run_state.
  induction run as [|c run' IH]; intros s Hs Hrun; simpl in *; [exact Hs|].
  apply andb_true_iff in Hrun as [Hc Hrun].
  apply IH; [|exact Hrun]. now apply dispatch_state_continuous.
Qed.

(** X18: a resolver put into continuous mode on an object that is not
    cancelled does not stop by itself: as long as the loop dispatches
    neither a cancel nor a timeout, the stopping criteria are not satisfied,
    however many results there are and whatever the clock shows, and every
    wave timer that runs out emits a multicast burst and arms the timer
    again, with [continuous_resolve_interval + multicast_min_rtt], plus
    [unicast_min_rtt] when there are unicast endpoints. *)
Theorem continuous_resolver_keeps_going :
  forall (xpath_query : string -> option string)
         (query : string) (forget_after : time) (w0 : world) (s0 : resolver_impl)
         (run : list completion) (w : world),
    xpath_query query = None ->
    cancelled_ s0 = false ->
    forallb is_quiet run = true ->
    let s := snd (io_run run (snd (resolve_continuous xpath_query query
                                                      forget_after w0 s0))) in
    let s' := snd (dispatch (timer_completed the_wave_timer success w) s) in
    stopping_criteria w s = false /\
    io_trace s' = io_trace s ++ multicast_effects w s /\
    wave_timer_ s'
    = Some (continuous_resolve_interval (cfg_ s0) + multicast_min_rtt (cfg_ s0)
            + if is_empty (ucast_endpoints_ s0) then 0 else unicast_min_rtt (cfg_ s0)).
Proof.
  intros xpath_query query forget_after w0 s0 run w Hvalid Hc Hrun s s'.
  subst s s'. rewrite resolve_continuous_exact by assumption. cbn [snd].
  rewrite io_run_run. cbn [snd]. rewrite dispatch_run. cbn [snd dispatch_state].
  assert (Hstart : continuous_mode s0 (continuous_state query forget_after w0 s0)).
  { unfold continuous_state, first_wave_state.
    assert (Hsetup : continuous_mode s0 (continuous_setup query forget_after s0))
      by (repeat split; exact Hc).
    rewrite (stopping_criteria_continuous s0 _ w0 Hsetup).
    unfold wave_state, continuous_mode.
    destruct (is_empty (ucast_endpoints_ _)); cbn; repeat split; exact Hc. }
  pose proof (io_run_state_continuous s0 run _ Hstart Hrun) as Hs.
  set (s := io_run_state run (continuous_state query forget_after w0 s0)) in *.
  assert (Hs1 : continuous_mode s0 (set_timer the_wave_timer None s)) by exact Hs.
  rewrite (stopping_criteria_continuous s0 _ w Hs).
  rewrite (stopping_criteria_continuous s0 _ w Hs1).
  destruct Hs as (_ & _ & _ & Hfast & Hcfg & Hucast).
  split; [reflexivity|]. unfold wave_state, wave_interval.
  cbn [set_timer ucast_endpoints_ set_wave_timer_ fast_mode_ cfg_ io_trace].
  rewrite Hfast, Hcfg, Hucast.
  destruct (is_empty (ucast_endpoints_ s0)); cbn; split; try reflexivity;
    f_equal; lia.
Qed.

(** ** Cancelling the timers *)

Lemma timer_of_set_timer (t t' : timer_id) (v : steady_timer) (s : resolver_impl) :
  timer_of t (set_timer t' v s) = if
    match t, t' with
    | the_wave_timer, the_wave_timer
    | the_unicast_timer, the_unicast_timer
    | the_resolve_timeout, the_resolve_timeout => true
    | _, _ => false
    end then v else timer_of t s.
Proof. destruct t, t'; reflexivity. Qed.

Lemma posted_closures_run :
  forall (queue : list timer_id) (s : resolver_impl),
    io_posted s = queue ->
    let s' := io_run_state (repeat posted_closure (List.length queue)) s in
    io_posted s' = [] /\
    (forall t, In t queue \/ timer_of t s = None -> timer_of t s' = None) /\
    cancelled_ s' = cancelled_ s /\ expired_ s' = expired_ s /\
    results_ s' = results_ s /\ io_trace s' = io_trace s.
Proof.
  unfold io_run_state.
  induction queue as [|t0 rest IH]; intros s Hq; cbn [List.length repeat fold_left].
  - repeat split; try assumption. intros t [[]|Ht]. exact Ht.
  - cbn [dispatch_state]. rewrite Hq.
    set (s1 := set_timer t0 None (set_io_posted rest s)).
    assert (Hq1 : io_posted s1 = rest) by (unfold s1; now destruct t0).
    destruct (IH s1 Hq1) as (Hp & Ht & Hc & He & Hr & Htr).
    split; [exact Hp|]. split; [|unfold s1 in *; destruct t0; repeat split; assumption].
    intros t Hcase. apply Ht.
    destruct Hcase as [[<-|Hin]|Hnone].
    + right. unfold s1. rewrite timer_of_set_timer. now destruct t0.
    + now left.
    + right. unfold s1. rewrite timer_of_set_timer.
      destruct t, t0; try reflexivity; exact Hnone.
Qed.

(** X19: [cancel()] does not touch the timers itself; it posts one
    cancellation for each of the three timers onto the I/O context.  Once
    the context has run what is posted, all three timers are idle, the
    object is cancelled and expired, and its results are what they were. *)
Theorem cancel_stops_all_timers :
  forall s : resolver_impl,
    let s1 := snd (cancel s) in
    let s2 := snd (io_run (repeat posted_closure (List.length (io_posted s1))) s1) in
    (wave_timer_ s1 = wave_timer_ s /\
     unicast_timer_ s1 = unicast_timer_ s /\
     resolve_timeout_expired_ s1 = resolve_timeout_expired_ s /\
     io_posted s1
     = io_posted s ++ [the_wave_timer; the_unicast_timer; the_resolve_timeout]) /\
    (wave_timer_ s2 = None /\
     unicast_timer_ s2 = None /\
     resolve_timeout_expired_ s2 = None /\
     io_posted s2 = [] /\
     cancelled_ s2 = true /\ expired_ s2 = true /\
     results_ s2 = results_ s).
Proof.
  intros s s1 s2. subst s2. rewrite io_run_run. cbn [snd].
  assert (Hq : io_posted s1
               = io_posted s ++ [the_wave_timer; the_unicast_timer; the_resolve_timeout]).
  { subst s1. cbn. now rewrite <- !app_assoc. }
  split; [subst s1; repeat split; exact Hq|].
  destruct (posted_closures_run (io_posted s1) s1 eq_refl)
    as (Hp & Ht & Hc & He & Hr & _).
  assert (Hin : forall t, In t (io_posted s1)).
  { intros t. rewrite Hq. apply in_or_app. right. destruct t; simpl; auto. }
  repeat split.
  - apply (Ht the_wave_timer). left. apply Hin.
  - apply (Ht the_unicast_timer). left. apply Hin.
  - apply (Ht the_resolve_timeout). left. apply Hin.
  - exact Hp.
  - rewrite Hc. reflexivity.
  - rewrite He. reflexivity.
  - rewrite Hr. reflexivity.
Qed.

(** ** The constructor *)

Section Constructor.

Variable FOREVER : time.
Variable cfg : api_config.
Variable make_address : string -> option address.
Variable udp_resolve : string -> string -> option (list address).

Let resolver : resolver_impl := resolver_impl_ctor FOREVER cfg make_address udp_resolve.

(** X20: the multicast endpoints of a new resolver are the configured
    multicast addresses that parse, each with the multicast port; an address
    that does not parse is left out and costs the others nothing.  (The
    constructor takes the configured addresses as strings and parses them
    with [ip::make_address].) *)
Theorem ctor_multicast_endpoints :
  (forall ep,
      In ep (mcast_endpoints_ resolver) <->
      exists a, In a (multicast_addresses cfg) /\
                make_address a = Some (fst ep) /\ snd ep = multicast_port cfg) /\
  List.length (mcast_endpoints_ resolver)
  = List.length (filter (fun a => match make_address a with
                                  | Some _ => true
                                  | None => false
                                  end) (multicast_addresses cfg)).
Proof.
  unfold resolver, resolver_impl_ctor. cbn [mcast_endpoints_]. split.
  - intros [ip port]. rewrite in_flat_map. split.
    + intros (a & Ha & Hin). exists a. split; [exact Ha|].
      destruct (make_address a) as [ip'|]; [|contradiction].
      destruct Hin as [Heq|[]]. inversion Heq; subst. now split.
    + intros (a & Ha & Hparse & Hport). exists a. split; [exact Ha|].
      simpl in *. rewrite Hparse, Hport. now left.
  - induction (multicast_addresses cfg) as [|a l IH]; simpl; [reflexivity|].
    destruct (make_address a); simpl; now rewrite IH.
Qed.

Lemma length_flat_map_const {A B : Type} (f : A -> list B) (n : nat) (l : list A) :
  (forall a, List.length (f a) = n) ->
  List.length (flat_map f l) = (List.length l * n)%nat.
Proof.
  intros Hf. induction l as [|a l IH]; simpl; [reflexivity|].
  now rewrite length_app, Hf, IH.
Qed.

Lemma port_loop_spec (base range p : Z) :
  In p (port_loop base range) <-> base <= p < base + range.
Proof.
  unfold port_loop. rewrite in_map_iff. split.
  - intros (i & <- & Hi). apply in_seq in Hi. lia.
  - intros H. exists (Z.to_nat (p - base)). split; [lia|]. apply in_seq. lia.
Qed.

Lemma ctor_ucast_flat :
  ucast_endpoints_ resolver
  = flat_map (fun a => map (fun p => (a, p mod 2 ^ 16))
                           (port_loop (base_port cfg) (port_range cfg)))
             (resolved_addresses udp_resolve cfg).
Proof.
  unfold resolver, resolver_impl_ctor, resolved_addresses. cbn [ucast_endpoints_].
  induction (known_peers cfg) as [|peer peers IH]; cbn [flat_map]; [reflexivity|].
  rewrite flat_map_app, IH. f_equal.
  now destruct (udp_resolve peer (string_of_port (base_port cfg))).
Qed.

(** X21: the unicast endpoints of a new resolver are, for every address a
    known peer resolves to, one endpoint per port number from [base_port] up
    to [base_port + port_range - 1], the port number being reduced to 16
    bits; a peer that does not resolve is left out and costs the others
    nothing.  There are [port_range] endpoints per resolved address. *)
Theorem ctor_unicast_endpoints :
  (forall ep,
      In ep (ucast_endpoints_ resolver) <->
      exists peer rs p,
        In peer (known_peers cfg) /\
        udp_resolve peer (string_of_port (base_port cfg)) = Some rs /\
        In (fst ep) rs /\
        base_port cfg <= p < base_port cfg + port_range cfg /\
        snd ep = p mod 2 ^ 16) /\
  List.length (ucast_endpoints_ resolver)
  = (List.length (resolved_addresses udp_resolve cfg) * Z.to_nat (port_range cfg))%nat.
Proof.
  rewrite ctor_ucast_flat. split.
  - intros [ip port]. rewrite in_flat_map. unfold resolved_addresses. split.
    + intros (a & Ha & Hin). apply in_flat_map in Ha as (peer & Hpeer & Hrs).
      apply in_map_iff in Hin as (p & Heq & Hp). inversion Heq; subst.
      destruct (udp_resolve peer (string_of_port (base_port cfg))) as [rs|] eqn:Hres;
        [|contradiction].
      exists peer, rs, p. split; [exact Hpeer|]. split; [exact Hres|].
      split; [exact Hrs|]. split; [now apply port_loop_spec|reflexivity].
    + intros (peer & rs & p & Hpeer & Hres & Hin & Hp & Hport). simpl in *.
      exists ip. split.
      * apply in_flat_map. exists peer. split; [exact Hpeer|]. now rewrite Hres.
      * apply in_map_iff. exists p. split; [now rewrite Hport|].
        now apply port_loop_spec.
  - apply length_flat_map_const. intros a. unfold port_loop.
    now rewrite !length_map, length_seq.
Qed.

(** X22: when the port range fits below 65536, the ports of the unicast
    endpoints of a new resolver are the configured ones: each lies between
    [base_port] and [base_port + port_range - 1]. *)
Theorem ctor_unicast_ports_in_range :
  0 <= base_port cfg ->
  base_port cfg + port_range cfg <= 2 ^ 16 ->
  forall ep, In ep (ucast_endpoints_ resolver) ->
             base_port cfg <= snd ep < base_port cfg + port_range cfg.
Proof.
  intros Hbase Hfit ep Hin. rewrite ctor_ucast_flat in Hin.
  apply in_flat_map in Hin as (a & _ & Hin).
  apply in_map_iff in Hin as (p & <- & Hp). apply port_loop_spec in Hp.
  cbn [snd]. rewrite Z.mod_small; lia.
Qed.

(** X23: a new resolver tries IPv6 before IPv4, tries a stack only if the
    configuration allows it and tries it once; it uses the same stacks for
    TCP; and it has no stack at all exactly when the configuration allows
    neither. *)
Theorem ctor_protocols :
  (In v6 (udp_protocols_ resolver) <-> allow_ipv6 cfg = true) /\
  (In v4 (udp_protocols_ resolver) <-> allow_ipv4 cfg = true) /\
  NoDup (udp_protocols_ resolver) /\
  (forall before after, udp_protocols_ resolver = before ++ v4 :: after -> ~ In v6 after) /\
  tcp_protocols_ resolver = udp_protocols_ resolver /\
  (udp_protocols_ resolver = [] <-> allow_ipv6 cfg = false /\ allow_ipv4 cfg = false).
Proof.
  unfold resolver, resolver_impl_ctor. cbn [udp_protocols_ tcp_protocols_].
  assert (Horder : forall l : list protocol,
             (List.length l <= 2)%nat -> hd v6 l = v6 \/ l = [v4] ->
             forall before after, l = before ++ v4 :: after -> ~ In v6 after).
  { intros l Hlen Hhd before after Heq Hin.
    destruct after as [|a after']; [exact Hin|].
    apply (f_equal (@List.length _)) in Heq as Hl.
    rewrite length_app in Hl. simpl in Hl.
    destruct before as [|b before']; simpl in Hl; [|lia].
    subst l. destruct Hhd as [Hhd|Hhd]; discriminate Hhd. }
  destruct (allow_ipv6 cfg), (allow_ipv4 cfg); cbn [app];
    (split; [simpl; intuition (discriminate || reflexivity)|]);
    (split; [simpl; intuition (discriminate || reflexivity)|]);
    (split; [repeat constructor; simpl; intuition discriminate|]);
    (split; [apply Horder; simpl; auto|]);
    (split; [reflexivity|]);
    (split; [intros H; (discriminate H || (split; reflexivity))
            |intros [H1 H2]; (discriminate || reflexivity)]).
Qed.

End Constructor.

(** ** [create_resolver] and [build_query]: further properties *)

Lemma continuous_state_fields (query : string) (forget_after : time) (w : world)
      (s : resolver_impl) :
  cancelled_ s = false ->
  let r := continuous_state query forget_after w s in
  query_ r = query /\ forget_after_ r = forget_after /\ minimum_ r = 0 /\
  fast_mode_ r = false /\ cancelled_ r = false /\ expired_ r = false /\
  results_ r = [] /\ background_io_ r = true /\
  (exists d, wave_timer_ r = Some d) /\
  io_trace r = io_trace s ++ [io_restart] ++ multicast_effects w r ++ [spawn_io_thread].
Proof.
  intros Hc r. subst r. unfold continuous_state, first_wave_state.
  assert (Hsetup : continuous_mode s (continuous_setup query forget_after s))
    by (repeat split; exact Hc).
  rewrite (stopping_criteria_continuous s _ w Hsetup).
  unfold wave_state.
  destruct (is_empty (ucast_endpoints_ _)); cbn;
    (split; [reflexivity|]); (split; [reflexivity|]); (split; [reflexivity|]);
    (split; [reflexivity|]); (split; [exact Hc|]); (split; [reflexivity|]);
    (split; [reflexivity|]); (split; [reflexivity|]);
    (split; [eexists; reflexivity|]);
    now rewrite <- !app_assoc.
Qed.

(** X24: when the query checker rejects the query [create_resolver] has
    built, [create_resolver] returns null and writes one ERROR line that
    begins with the fixed text.  Whenever it returns a resolver, the checker
    has accepted that query, nothing has been written, and the resolver is
    in continuous mode: that query, the given [forget_after], no minimum
    count, not in fast mode, neither cancelled nor expired, an empty store,
    the first multicast burst emitted, the wave timer armed, and the worker
    thread started last. *)
Theorem create_resolver_outcome :
  forall (xpath_query : string -> option string) (FOREVER : time)
         (cfg : api_config) (make_address : string -> option address)
         (udp_resolve : string -> string -> option (list address))
         (forget_after : time) (pred_or_prop value : option string) (w : world),
    let query := build_query cfg pred_or_prop value in
    let created := create_resolver xpath_query FOREVER cfg make_address udp_resolve
                                   forget_after pred_or_prop value w in
    (forall m,
        xpath_query query = Some m ->
        exists msg,
          created =
          (None,
           [log_f ERROR ("Error while creating a continuous_resolver: " ++ msg)%string]))
    /\
    (forall r log,
        created = (Some r, log) ->
        xpath_query query = None /\ log = [] /\
        query_ r = query /\ forget_after_ r = forget_after /\ minimum_ r = 0 /\
        fast_mode_ r = false /\ cancelled_ r = false /\ expired_ r = false /\
        results_ r = [] /\ background_io_ r = true /\
        (exists d, wave_timer_ r = Some d) /\
        io_trace r = [io_restart] ++ multicast_effects w r ++ [spawn_io_thread]).
Proof.
  intros xpath_query FOREVER cfg make_address udp_resolve forget_after
         pred_or_prop value w query created.
  assert (Hbad : forall m, xpath_query query = Some m ->
                           created =
                           (None,
                            [log_f ERROR
                                   ("Error while creating a continuous_resolver: "
                                    ++ ((("Invalid query '" ++ query) ++ "': ") ++ m))%string])).
  { intros m Hq. subst created. unfold create_resolver. fold query.
    unfold resolve_continuous, check_query. rewrite Hq. reflexivity. }
  split.
  - intros m Hq. eexists. exact (Hbad m Hq).
  - intros r log Hcreated.
    destruct (xpath_query query) as [m|] eqn:Hq.
    { rewrite (Hbad m eq_refl) in Hcreated. discriminate Hcreated. }
    split; [reflexivity|].
    assert (Hcreate :
              created
              = (Some (continuous_state query forget_after w
                         (resolver_impl_ctor FOREVER cfg make_address udp_resolve)),
                 [])).
    { subst created. unfold create_resolver. fold query.
      rewrite (resolve_continuous_exact xpath_query query forget_after w _ Hq).
      reflexivity. }
    pose proof (continuous_state_fields query forget_after w
                  (resolver_impl_ctor FOREVER cfg make_address udp_resolve) eq_refl)
      as Hfields.
    cbv zeta in Hfields.
    change (io_trace (resolver_impl_ctor FOREVER cfg make_address udp_resolve))
      with (@nil effect) in Hfields.
    rewrite Hcreate in Hcreated. clear Hcreate. revert Hcreated Hfields.
    generalize (continuous_state query forget_after w
                  (resolver_impl_ctor FOREVER cfg make_address udp_resolve)).
    intros r0 Hcreated Hfields. inversion Hcreated; subst r log.
    split; [reflexivity|exact Hfields].
Qed.

(** X25: looking for a property with a value is looking with the predicate
    <property>='<value>': [build_query] gives the same query for both. *)
Theorem build_query_property_is_predicate :
  forall (cfg : api_config) (prop value : string),
    build_query cfg (Some prop) (Some value)
    = build_query cfg (Some (prop ++ "='" ++ value ++ "'")%string) None.
Proof.
  intros cfg prop value. unfold build_query. now rewrite !string_app_assoc.
Qed.

(** ** Instances of the further properties *)

Lemma results_without_stale_entries_witness :
  Forall (fun e => last_seen e >= 1000 - forget_after_ example_resolver_with_results)
         (results_ example_resolver_with_results) /\
  results 1 1000 example_resolver_with_results
  = (Returned ["<info><name>BioSemi</name></info>"], example_resolver_with_results).
Proof.
  assert (H : Forall (fun e => last_seen e
                               >= 1000 - forget_after_ example_resolver_with_results)
                     (results_ example_resolver_with_results))
    by (repeat constructor; vm_compute; discriminate).
  split; [exact H|].
  exact (results_without_stale_entries 1 1000 example_resolver_with_results H).
Defined.

Lemma results_twice_witness :
  let s := set_forget_after_ 1075 example_resolver_with_results in
  1000 <= 2000 /\
  results 5 1000 (snd (results 1 2000 s))
  = (Returned ["<info><name>Tobii</name></info>"], snd (results 1 2000 s)).
Proof.
  cbv zeta. assert (H : 1000 <= 2000) by lia.
  split; [exact H|].
  exact (proj1 (results_twice 1 5 2000 1000
                  (set_forget_after_ 1075 example_resolver_with_results) H)).
Defined.

Lemma results_cap_is_prefix_witness :
  (1 <= 2)%N /\
  exists out1 out2,
    results 1 1000 example_resolver_with_results
    = (Returned out1, snd (results 2 1000 example_resolver_with_results)) /\
    fst (results 2 1000 example_resolver_with_results) = Returned out2 /\
    out1 = firstn (N.to_nat 1) out2.
Proof.
  assert (H : (1 <= 2)%N) by lia.
  split; [exact H|].
  exact (results_cap_is_prefix 1 2 1000 example_resolver_with_results H).
Defined.

Lemma failed_burst_logs_last_error_witness :
  udp_protocols_ example_resolver = [v6] ++ [v4] /\
  udp_multicast_burst (dead_world 1000) example_resolver
  = (Returned tt,
     set_io_trace
       (io_trace example_resolver
        ++ [log_f ERROR (multicast_failure_msg ++ "Network is unreachable")%string])
       example_resolver).
Proof.
  assert (H : udp_protocols_ example_resolver = [v6] ++ [v4]) by reflexivity.
  split; [exact H|].
  refine (proj1 (failed_burst_logs_last_error (dead_world 1000) example_resolver
                   [v6] v4 H) "Network is unreachable" eq_refl _).
  constructor; [discriminate|constructor].
Defined.

Lemma burst_without_stacks_witness :
  udp_protocols_ stackless_resolver = [] /\
  udp_multicast_burst (calm_world 1000) stackless_resolver
  = (Returned tt, stackless_resolver).
Proof.
  assert (H : udp_protocols_ stackless_resolver = []) by reflexivity.
  split; [exact H|].
  exact (proj1 (burst_without_stacks (calm_world 1000) stackless_resolver H)).
Defined.

Lemma resolve_oneshot_forgets_earlier_results_witness :
  example_xpath_query "session_id='default'" = None /\
  forallb (fun c => negb (is_reply c)) example_timeout_run = true /\
  fst (resolve_oneshot example_xpath_query example_FOREVER "session_id='default'"
                       1 1000 0 1000 (calm_world 1000) example_timeout_run
                       example_resolver_with_results)
  = Returned [].
Proof.
  assert (H1 : example_xpath_query "session_id='default'" = None) by reflexivity.
  split; [exact H1|]. split; [reflexivity|].
  exact (resolve_oneshot_forgets_earlier_results
           example_xpath_query example_FOREVER "session_id='default'" 1 1000 0 1000
           (calm_world 1000) example_timeout_run example_resolver_with_results
           H1 eq_refl).
Defined.

Lemma expired_resolver_starts_no_attempt_witness :
  let s := snd (cancel_ongoing_resolve example_resolver) in
  expired_ s = true /\
  forallb (fun c => negb (is_unicast_firing c)) example_late_wave_run = true /\
  attempts (snd (io_run example_late_wave_run s)) = attempts s.
Proof.
  cbv zeta.
  assert (H1 : expired_ (snd (cancel_ongoing_resolve example_resolver)) = true)
    by reflexivity.
  split; [exact H1|]. split; [reflexivity|].
  exact (proj2 (proj2 (expired_resolver_starts_no_attempt
                         example_late_wave_run
                         (snd (cancel_ongoing_resolve example_resolver)) H1 eq_refl))).
Defined.

Lemma unicast_burst_after_cancel_witness :
  In v4 (udp_protocols_ example_resolver) /\
  attempt_error (calm_world 1500) v4 (ucast_endpoints_ example_resolver) = None /\
  In (attempt_begin v4 (ucast_endpoints_ example_resolver) (query_ example_resolver)
                    (unicast_max_rtt (cfg_ example_resolver)))
     (io_trace (snd (dispatch (timer_completed the_unicast_timer success
                                               (calm_world 1500))
                              (snd (cancel example_resolver))))).
Proof.
  assert (H1 : In v4 (udp_protocols_ example_resolver)) by (right; left; reflexivity).
  assert (H2 : attempt_error (calm_world 1500) v4 (ucast_endpoints_ example_resolver)
               = None) by reflexivity.
  split; [exact H1|]. split; [exact H2|].
  exact (proj2 (unicast_burst_after_cancel (calm_world 1500) example_resolver v4 H1 H2)).
Defined.

Lemma continuous_resolver_keeps_going_witness :
  example_xpath_query "session_id='default'" = None /\
  cancelled_ example_resolver = false /\
  forallb is_quiet example_continuous_run = true /\
  stopping_criteria (calm_world 4000)
    (snd (io_run example_continuous_run (snd (resolve_continuous example_xpath_query
                             "session_id='default'" 5000 (calm_world 1000)
                             example_resolver))))
  = false.
Proof.
  assert (H1 : example_xpath_query "session_id='default'" = None) by reflexivity.
  assert (H2 : cancelled_ example_resolver = false) by reflexivity.
  split; [exact H1|]. split; [exact H2|]. split; [reflexivity|].
  exact (proj1 (continuous_resolver_keeps_going
                  example_xpath_query "session_id='default'" 5000 (calm_world 1000)
                  example_resolver example_continuous_run (calm_world 4000)
                  H1 H2 eq_refl)).
Defined.

Lemma ctor_unicast_ports_in_range_witness :
  0 <= base_port example_config /\
  base_port example_config + port_range example_config <= 2 ^ 16 /\
  In ("192.168.0.7", 16573) (ucast_endpoints_ example_resolver) /\
  base_port example_config <= snd ("192.168.0.7", 16573)
  < base_port example_config + port_range example_config.
Proof.
  assert (H1 : 0 <= base_port example_config) by (cbn; lia).
  assert (H2 : base_port example_config + port_range example_config <= 2 ^ 16)
    by (cbn; lia).
  assert (H3 : In ("192.168.0.7", 16573) (ucast_endpoints_ example_resolver))
    by (right; left; reflexivity).
  split; [exact H1|]. split; [exact H2|]. split; [exact H3|].
  exact (ctor_unicast_ports_in_range example_FOREVER example_config
           example_make_address example_udp_resolve H1 H2 _ H3).
Defined.
